(** * pkg/aws/eni/node_manager.go: the ENI node manager

    A shallow embedding of the fleet registry ([NodeManager]), its
    constructor, the two trigger handlers and the reconciliation pass
    ([Resync]), followed by the properties the specification states
    about them.

    The embedding is sequential: every method runs to completion on an
    explicit program state.  Locks are not represented; each method body
    is read as the critical sections it is made of. *)

From Stdlib Require Import ZArith Lia Sorting.Sorted.
From stdpp Require Import gmap strings list fin_maps sorting.

Local Open Scope Z_scope.

(** * Part I: the program *)

(** ** Go's [int]

    [int] is a 64-bit two's-complement integer on the platforms the
    operator is built for.  Values are carried as [Z]; every arithmetic
    operation of the source goes through [wrap]. *)
Module GoInt.

Definition modulus : Z := 2 ^ 64.
Definition min_int : Z := - 2 ^ 63.
Definition max_int : Z := 2 ^ 63 - 1.

Definition wrap (z : Z) : Z := (z - min_int) mod modulus + min_int.

Definition add (a b : Z) : Z := wrap (a + b).
Definition sub (a b : Z) : Z := wrap (a - b).

Definition InRange (z : Z) : Prop := min_int <= z <= max_int.

End GoInt.

(** ** Data model *)

(** Addresses of heap-allocated objects ([*Node], [*NodeManager]). *)
Definition ptr := positive.

(** [v2.CiliumNode] is declared in another package; this file reads its
    [Name] only.  The rest of the resource is an uninterpreted payload. *)
Record CiliumNode := mkCiliumNode {
  Name : string;
  Payload : string;
}.

#[global] Instance CiliumNode_eq_dec : EqDecision CiliumNode.
Proof. solve_decision. Defined.

(** The [stats] of a node (declared in node.go), with the four counters
    node_manager.go reads. *)
Record nodeStatistics := mkStats {
  availableIPs : Z;
  usedIPs : Z;
  neededIPs : Z;
  remainingInterfaces : Z;
}.

#[global] Instance nodeStatistics_eq_dec : EqDecision nodeStatistics.
Proof. solve_decision. Defined.

(** Modelled from the spec: the [Node] struct is declared in node.go.  The
    fields are those node_manager.go reads and writes ([name], [manager],
    [stats], [resyncNeeded]; the [mutex] is not represented), and
    [resource], the external resource fields that the specification has
    the node merge into its local state. *)
Record Node := mkNode {
  name : string;
  manager : ptr;
  stats : nodeStatistics;
  resyncNeeded : bool;
  resource : option CiliumNode;
}.

#[global] Instance Node_eq_dec : EqDecision Node.
Proof. solve_decision. Defined.

Definition zeroStats : nodeStatistics := mkStats 0 0 0 0.

(** The composite literal [&Node{name: nm, manager: m}]: every other field
    has its zero value. *)
Definition newNode (nm : string) (m : ptr) : Node :=
  mkNode nm m zeroStats false None.

Definition set_resyncNeeded (b : bool) (n : Node) : Node :=
  mkNode (name n) (manager n) (stats n) b (resource n).

Definition set_resource (r : option CiliumNode) (n : Node) : Node :=
  mkNode (name n) (manager n) (stats n) (resyncNeeded n) r.

Definition set_stats (st : nodeStatistics) (n : Node) : Node :=
  mkNode (name n) (manager n) st (resyncNeeded n) (resource n).

(** *** Triggers *)

(** The two closures passed as [TriggerFunc], by name. *)
Inductive TriggerFunc :=
| deficitResolverFunc
| resyncTriggerFunc.

(** [time.Second], in nanoseconds. *)
Definition Second : Z := 1000000000.

(** [trigger.Parameters], with the three fields the constructor sets. *)
Record Parameters := mkParameters {
  ParamName : string;
  MinInterval : Z;
  ParamTriggerFunc : TriggerFunc;
}.

(** Modelled from the spec: [trigger.Trigger] is declared in pkg/trigger.
    A trigger holds its scheduling policy and its batch handler, that is,
    the parameters it was made from; the reasons handed to it are read off
    the calls made to it. *)
Record Trigger := mkTrigger {
  trigger_params : Parameters;
}.

(** *** Calls leaving this file

    What the methods do to their collaborators is recorded as the sequence
    of calls they make: to the metrics sink, to the triggers, to the
    logger, to the instance data source and to the methods of [Node] that
    live in node.go.  A call on a node records the address of the receiver and
    the state the receiver is in when the call is made. *)
Inductive LogLevel := Debug | Info | Warning.

Inductive LogValue :=
| LStr (s : string)
| LInt (z : Z).

Inductive Call :=
| CLog (lvl : LogLevel) (msg : string) (fields : list (string * LogValue))
| CTriggerWithReason (t : Trigger) (reason : string)
| CSetAllocatedIPs (typ : string) (allocated : Z)
| CSetAvailableENIs (available : Z)
| CSetNodesAtCapacity (nodes : Z)
| CInstancesResync
| CUpdatedResource (p : ptr) (n : Node) (r : CiliumNode)
| CRecalculateLocked (p : ptr) (n : Node)
| CResolveIPDeficit (p : ptr) (n : Node)
| CSyncToAPIServer (p : ptr) (n : Node).

(** *** The manager and the program state *)

Record NodeManager := mkNodeManager {
  nodes : gmap string ptr;
  instancesAPI : ptr;
  ec2API : ptr;
  k8sAPI : ptr;
  metricsAPI : ptr;
  resyncTrigger : Trigger;
  deficitResolver : Trigger;
}.

Definition set_nodes (m : gmap string ptr) (n : NodeManager) : NodeManager :=
  mkNodeManager m (instancesAPI n) (ec2API n) (k8sAPI n) (metricsAPI n)
                (resyncTrigger n) (deficitResolver n).

(** The state a method runs on: the [Node] objects by address, the manager
    (at address [self]) and the calls made so far, oldest first. *)
Record State := mkState {
  heap : gmap ptr Node;
  self : ptr;
  mngr : NodeManager;
  calls : list Call;
}.

Definition set_heap (h : gmap ptr Node) (s : State) : State :=
  mkState h (self s) (mngr s) (calls s).

Definition set_mngr (m : NodeManager) (s : State) : State :=
  mkState (heap s) (self s) m (calls s).

Definition emit (c : Call) (s : State) : State :=
  mkState (heap s) (self s) (mngr s) (calls s ++ [c]).

(** Reading through a pointer.  Go has no dangling pointers; the zero
    [Node] stands for an address that was never allocated. *)
Definition deref (p : ptr) (s : State) : Node :=
  default (newNode "" 1%positive) (heap s !! p).

Definition store (p : ptr) (n : Node) (s : State) : State :=
  set_heap (<[p := n]> (heap s)) s.

(** ** What the file takes from elsewhere *)

(** The Go runtime and standard library: the order in which [range] walks
    a map is unspecified, and [sort.Slice] is not stable.  Both are taken
    with their documented contract only. *)
Class GoRuntime := {
  mapRange : gmap string ptr -> list (string * ptr);
  mapRange_perm : forall m, mapRange m ≡ₚ map_to_list m;
  sortSlice : (ptr -> ptr -> bool) -> list ptr -> list ptr;
  sortSlice_perm : forall less l, sortSlice less l ≡ₚ l;
  sortSlice_sorted : forall (key : ptr -> Z) l,
    StronglySorted (fun a b => key b <= key a)
                   (sortSlice (fun a b => key a >? key b) l);
}.

(** The rest of the package: the methods of [Node] defined in node.go, the
    [fieldName] constant and [trigger.NewTrigger].  A method of [Node] is
    a function of the receiver; it returns the receiver as the method
    leaves it, with the method's result. *)
Class NodePkg := {
  fieldName : string;
  getNeededAddresses : Node -> Z;
  recalculateLocked : Node -> Node * bool;
  updatedResource : CiliumNode -> Node -> Node * bool;
  ResolveIPDeficit : Node -> Node * option string;
  SyncToAPIServer : Node -> Node;
  NewTrigger : Parameters -> Trigger + string;
}.

(** ** A state monad for the methods *)

Definition M (A : Type) : Type := State -> A * State.

Definition ret {A} (a : A) : M A := fun s => (a, s).

Definition bind {A B} (m : M A) (k : A -> M B) : M B :=
  fun s => let (a, s') := m s in k a s'.

Definition get : M State := fun s => (s, s).
Definition modify (f : State -> State) : M unit := fun s => (tt, f s).
Definition call (c : Call) : M unit := modify (emit c).

Declare Scope go_scope.
Delimit Scope go_scope with go.
Notation "x <- m ;; k" := (bind m (fun x => k))
  (at level 100, m at next level, right associativity) : go_scope.
Notation "m ;;; k" := (bind m (fun _ => k))
  (at level 100, right associativity) : go_scope.

(** [for _, x := range l { body x }] *)
Fixpoint forRange {A} (l : list A) (body : A -> M unit) : M unit :=
  match l with
  | [] => ret tt
  | x :: l' => bind (body x) (fun _ => forRange l' body)
  end.

(** A method of [Node] called through a pointer: the call is recorded
    with the receiver as it is found, the receiver is replaced by what the
    method leaves, and the method's result is returned. *)
Definition invoke {A} (p : ptr) (c : ptr -> Node -> Call) (f : Node -> Node * A)
  : M A :=
  fun s =>
    let n := deref p s in
    let (n', a) := f n in
    (a, store p n' (emit (c p n) s)).

(** ** The methods of [NodeManager] *)

Section Methods.
Context `{GoRuntime} `{NodePkg}.
Local Open Scope go_scope.

(** [GetNames] (lines 124-135) *)
Definition GetNames : M (list string) :=
  s <- get ;;
  ret (foldl (fun allNodeNames kv => allNodeNames ++ [kv.1])
             [] (mapRange (nodes (mngr s)))).

(** [Update] (lines 139-154) *)
Definition Update (resource : CiliumNode) : M bool :=
  s <- get ;;
  node <- match nodes (mngr s) !! Name resource with
          | Some node => ret node
          | None =>
              let node := fresh (dom (heap s)) in
              let n := newNode (Name resource) (self s) in
              modify (store node n) ;;;
              modify (fun s =>
                set_mngr (set_nodes (<[name n := node]> (nodes (mngr s))) (mngr s)) s) ;;;
              call (CLog Info "Discovered new CiliumNode custom resource"
                         [(fieldName, LStr (Name resource))]) ;;;
              ret node
          end ;;
  invoke node (fun p n => CUpdatedResource p n resource) (updatedResource resource).

(** [Delete] (lines 158-162) *)
Definition Delete (nodeName : string) : M unit :=
  modify (fun s => set_mngr (set_nodes (delete nodeName (nodes (mngr s))) (mngr s)) s).

(** [Get] (lines 165-170): [None] is the nil pointer. *)
Definition Get (nodeName : string) : M (option ptr) :=
  s <- get ;;
  ret (nodes (mngr s) !! nodeName).

(** [GetNodesByNeededAddresses] (lines 174-190).  The slice is made with
    one slot per entry of the map and the loop fills slot [index] at its
    [index]-th step: the list of the values in the order of the walk. *)
Definition GetNodesByNeededAddresses : M (list ptr) :=
  s <- get ;;
  let list := foldl (fun list kv => list ++ [kv.2]) [] (mapRange (nodes (mngr s))) in
  ret (sortSlice
         (fun i j => getNeededAddresses (deref i s) >? getNeededAddresses (deref j s))
         list).

(** The five accumulators of [Resync]. *)
Record totals := mkTotals {
  totalUsed : Z;
  totalAvailable : Z;
  totalNeeded : Z;
  totalRemainingInterfaces : Z;
  nodesAtCapacity : Z;
}.

Definition zeroTotals : totals := mkTotals 0 0 0 0 0.

(** The body of the loop of [Resync] (lines 200-224), for the node at
    [node] and the accumulators [t]. *)
Definition resyncNode (node : ptr) (t : totals) : M totals :=
  (* node.resyncNeeded = false *)
  modify (fun s => store node (set_resyncNeeded false (deref node s)) s) ;;;
  allocationNeeded <- invoke node CRecalculateLocked recalculateLocked ;;
  s <- get ;;
  let n := deref node s in
  call (CLog Debug "Recalculated allocation requirements"
             [(fieldName, LStr (name n));
              ("available", LInt (availableIPs (stats n)));
              ("used", LInt (usedIPs (stats n)))]) ;;;
  let totalUsed' := GoInt.add (totalUsed t) (usedIPs (stats n)) in
  let availableOnNode := GoInt.sub (availableIPs (stats n)) (usedIPs (stats n)) in
  let totalAvailable' := GoInt.add (totalAvailable t) availableOnNode in
  let totalNeeded' := GoInt.add (totalNeeded t) (neededIPs (stats n)) in
  let remainingInterfaces' :=
    GoInt.add (totalRemainingInterfaces t) (remainingInterfaces (stats n)) in
  let nodesAtCapacity' :=
    if (remainingInterfaces (stats n) =? 0) && (availableOnNode =? 0)
    then GoInt.add (nodesAtCapacity t) 1
    else nodesAtCapacity t in
  (if allocationNeeded && (remainingInterfaces (stats n) >? 0)
   then call (CTriggerWithReason (deficitResolver (mngr s)) (name n))
   else ret tt) ;;;
  invoke node CSyncToAPIServer (fun n => (SyncToAPIServer n, tt)) ;;;
  ret (mkTotals totalUsed' totalAvailable' totalNeeded' remainingInterfaces'
                nodesAtCapacity').

Fixpoint resyncLoop (l : list ptr) (t : totals) : M totals :=
  match l with
  | [] => ret t
  | node :: l' => t' <- resyncNode node t ;; resyncLoop l' t'
  end.

(** [Resync] (lines 196-232) *)
Definition Resync : M unit :=
  snapshot <- GetNodesByNeededAddresses ;;
  t <- resyncLoop snapshot zeroTotals ;;
  call (CSetAllocatedIPs "used" (totalUsed t)) ;;;
  call (CSetAllocatedIPs "available" (totalAvailable t)) ;;;
  call (CSetAllocatedIPs "needed" (totalNeeded t)) ;;;
  call (CSetAvailableENIs (totalRemainingInterfaces t)) ;;;
  call (CSetNodesAtCapacity (nodesAtCapacity t)).

(** The [TriggerFunc] of the deficit resolver (lines 89-99). *)
Definition deficitResolverHandler (reasons : list string) : M unit :=
  forRange reasons (fun name =>
    node <- Get name ;;
    match node with
    | Some node =>
        err <- invoke node CResolveIPDeficit ResolveIPDeficit ;;
        match err with
        | Some err =>
            call (CLog Warning "Unable to resolve IP deficit of node"
                       [("error", LStr err)])
        | None => ret tt
        end
    | None =>
        call (CLog Warning "Node has disappeared while allocation request was queued"
                   [(fieldName, LStr name)])
    end).

(** The [TriggerFunc] of the resync trigger (lines 108-111). *)
Definition resyncHandler (reasons : list string) : M unit :=
  call CInstancesResync ;;; Resync.

Definition runTriggerFunc (f : TriggerFunc) (reasons : list string) : M unit :=
  match f with
  | deficitResolverFunc => deficitResolverHandler reasons
  | resyncTriggerFunc => resyncHandler reasons
  end.

(** [NewNodeManager] (lines 77-121).  The manager is returned with both
    triggers in place; on failure the error message is returned. *)
Definition NewNodeManager (instancesAPI ec2API k8sAPI metrics : ptr)
  : NodeManager + string :=
  match NewTrigger (mkParameters "eni-node-manager-deficit-resolver" Second
                                 deficitResolverFunc) with
  | inr err => inr ("unable to initialize deficit resolver trigger: " +:+ err)
  | inl deficitResolver =>
      match NewTrigger (mkParameters "eni-node-manager-resync" Second
                                     resyncTriggerFunc) with
      | inr err => inr ("unable to initialize resync trigger: " +:+ err)
      | inl resyncTrigger =>
          inl (mkNodeManager ∅ instancesAPI ec2API k8sAPI metrics
                             resyncTrigger deficitResolver)
      end
  end.

End Methods.

(** * Part II: what a run leaves behind *)

(** ** Running a method *)

Definition exec {A} (m : M A) (s : State) : State := (m s).2.

Definition eval {A} (m : M A) (s : State) : A := (m s).1.

(** The calls a method makes when it is run from [s]. *)
Definition callsOf {A} (m : M A) (s : State) : list Call :=
  drop (length (calls s)) (calls (exec m s)).

(** ** Reading a sequence of calls *)

Definition triggered (cs : list Call) : list (Trigger * string) :=
  omap (fun c => match c with CTriggerWithReason t r => Some (t, r) | _ => None end) cs.

Definition recalculated (cs : list Call) : list (ptr * Node) :=
  omap (fun c => match c with CRecalculateLocked p n => Some (p, n) | _ => None end) cs.

Definition synced (cs : list Call) : list (ptr * Node) :=
  omap (fun c => match c with CSyncToAPIServer p n => Some (p, n) | _ => None end) cs.

Definition resolved (cs : list Call) : list (ptr * Node) :=
  omap (fun c => match c with CResolveIPDeficit p n => Some (p, n) | _ => None end) cs.

Definition isMetric (c : Call) : bool :=
  match c with
  | CSetAllocatedIPs _ _ | CSetAvailableENIs _ | CSetNodesAtCapacity _ => true
  | _ => false
  end.

Definition metrics (cs : list Call) : list Call := List.filter isMetric cs.

Definition allocatedIPs (cs : list Call) : list (string * Z) :=
  omap (fun c => match c with CSetAllocatedIPs typ v => Some (typ, v) | _ => None end) cs.

Definition nodesAtCapacitySet (cs : list Call) : list Z :=
  omap (fun c => match c with CSetNodesAtCapacity v => Some v | _ => None end) cs.

Definition sumZ (l : list Z) : Z := foldr Z.add 0 l.

Definition availableENIs (cs : list Call) : list Z :=
  omap (fun c => match c with CSetAvailableENIs v => Some v | _ => None end) cs.

Definition disappearedMessage : string :=
  "Node has disappeared while allocation request was queued".

Definition unresolvedMessage : string := "Unable to resolve IP deficit of node".

(** The names reported as disappeared, and the errors reported. *)
Definition disappeared (cs : list Call) : list string :=
  omap (fun c => match c with
                 | CLog Warning msg [(_, LStr nodeName)] =>
                     if decide (msg = disappearedMessage) then Some nodeName else None
                 | _ => None
                 end) cs.

Definition unresolved (cs : list Call) : list string :=
  omap (fun c => match c with
                 | CLog Warning msg [(_, LStr err)] =>
                     if decide (msg = unresolvedMessage) then Some err else None
                 | _ => None
                 end) cs.

Definition resolveOrWarning (c : Call) : Prop :=
  match c with
  | CResolveIPDeficit _ _ | CLog Warning _ _ => True
  | _ => False
  end.

(** Every pointer of the registry is allocated, and no two names share a
    node: what holds of a registry built by [Update] and [Delete]. *)
Definition registry_wf (s : State) : Prop :=
  (forall nodeName p, nodes (mngr s) !! nodeName = Some p -> is_Some (heap s !! p)) /\
  (forall n1 n2 p, nodes (mngr s) !! n1 = Some p -> nodes (mngr s) !! n2 = Some p ->
                   n1 = n2).

(** The resource events the manager receives. *)
Inductive Event :=
| EvUpdate (resource : CiliumNode)
| EvDelete (nodeName : string).

Section Observations.
Context `{GoRuntime} `{NodePkg}.

(** What a visit of [Resync] finds: the node as [recalculateLocked]
    leaves it, and the result of [recalculateLocked]. *)
Definition visits (cs : list Call) : list (Node * bool) :=
  map (fun pn => recalculateLocked pn.2) (recalculated cs).

Definition availableOnNode (st : nodeStatistics) : Z :=
  GoInt.sub (availableIPs st) (usedIPs st).

Definition atCapacity (st : nodeStatistics) : bool :=
  (remainingInterfaces st =? 0) && (availableOnNode st =? 0).

Definition enqueues (v : Node * bool) : bool :=
  v.2 && (remainingInterfaces (stats v.1) >? 0).

(** The accumulators after a node with statistics [st]. *)
Definition accumulate (t : totals) (st : nodeStatistics) : totals :=
  mkTotals (GoInt.add (totalUsed t) (usedIPs st))
           (GoInt.add (totalAvailable t) (availableOnNode st))
           (GoInt.add (totalNeeded t) (neededIPs st))
           (GoInt.add (totalRemainingInterfaces t) (remainingInterfaces st))
           (if atCapacity st then GoInt.add (nodesAtCapacity t) 1
            else nodesAtCapacity t).

(** The calls of one iteration of the loop of [Resync]. *)
Definition visitCalls (node : ptr) (s : State) : list Call :=
  let n0 := set_resyncNeeded false (deref node s) in
  let v := recalculateLocked n0 in
  CRecalculateLocked node n0
    :: CLog Debug "Recalculated allocation requirements"
            [(fieldName, LStr (name v.1));
             ("available", LInt (availableIPs (stats v.1)));
             ("used", LInt (usedIPs (stats v.1)))]
    :: (if enqueues v
        then [CTriggerWithReason (deficitResolver (mngr s)) (name v.1)]
        else [])
    ++ [CSyncToAPIServer node v.1].

(** The calls of the whole loop, node after node. *)
Fixpoint loopCalls (l : list ptr) (s : State) : list Call :=
  match l with
  | [] => []
  | node :: l' =>
      visitCalls node s ++ loopCalls l' (exec (resyncNode node zeroTotals) s)
  end.

(** The five gauges set at the end of [Resync]. *)
Definition gauges (t : totals) : list Call :=
  [CSetAllocatedIPs "used" (totalUsed t);
   CSetAllocatedIPs "available" (totalAvailable t);
   CSetAllocatedIPs "needed" (totalNeeded t);
   CSetAvailableENIs (totalRemainingInterfaces t);
   CSetNodesAtCapacity (nodesAtCapacity t)].

Definition neededOf (s : State) (p : ptr) : Z := getNeededAddresses (deref p s).

Definition applyEvent (e : Event) : M unit :=
  match e with
  | EvUpdate resource => bind (Update resource) (fun _ => ret tt)
  | EvDelete nodeName => Delete nodeName
  end.

(** The names left by a sequence of events, read as operations on a set:
    an update adds the name of its resource, a delete removes its name. *)
Definition netNames (names : gset string) (es : list Event) : gset string :=
  foldl (fun names e =>
           match e with
           | EvUpdate resource => {[Name resource]} ∪ names
           | EvDelete nodeName => names ∖ {[nodeName]}
           end) names es.

Definition registered (s : State) : gset string := dom (nodes (mngr s)).

(** The calls the handler makes for one name. *)
Definition resolveCalls (nodeName : string) (s : State) : list Call :=
  match nodes (mngr s) !! nodeName with
  | Some node =>
      CResolveIPDeficit node (deref node s)
        :: match (ResolveIPDeficit (deref node s)).2 with
           | Some err => [CLog Warning unresolvedMessage [("error", LStr err)]]
           | None => []
           end
  | None => [CLog Warning disappearedMessage [(fieldName, LStr nodeName)]]
  end.

End Observations.

(** ** A runtime and a package to run the methods on

    [stdRuntime] walks a map in the order of [map_to_list] and sorts with
    stdpp's merge sort.  [samplePkg] is a stand-in for node.go:
    [recalculateLocked] keeps the statistics the node holds and asks for an
    allocation when addresses are needed; [ResolveIPDeficit] fails on a
    node with no interface left. *)

Definition notAfter (less : ptr -> ptr -> bool) : relation ptr :=
  fun a b => less b a = false.

#[local] Instance notAfter_dec less a b : Decision (notAfter less a b) :=
  bool_eq_dec (less b a) false.

Definition mergeSortSlice (less : ptr -> ptr -> bool) (l : list ptr) : list ptr :=
  merge_sort (notAfter less) l.

Definition stdRuntime : GoRuntime.
Proof.
  refine {| mapRange := map_to_list; sortSlice := mergeSortSlice |}.
  - intros m. reflexivity.
  - intros less l. apply merge_sort_Permutation.
  - intros key l. unfold mergeSortSlice.
    set (R := notAfter (fun a b => key a >? key b)).
    assert (Htrans : Transitive R) by (intros a b c; unfold R, notAfter; lia).
    assert (Htotal : Total R) by (intros a b; unfold R, notAfter; lia).
    pose proof (StronglySorted_merge_sort R l) as Hs.
    set (sorted := merge_sort R l) in *. clearbody sorted.
    induction Hs as [| x l' Hl IH Hx]; constructor; [done |].
    eapply Forall_impl; [exact Hx |].
    unfold R, notAfter. intros b Hb. lia.
Defined.

(** A runtime that walks a map in the opposite order. *)
Definition reversedRuntime : GoRuntime.
Proof.
  refine {| mapRange := fun m => reverse (map_to_list m);
            sortSlice := mergeSortSlice |}.
  - intros m. apply reverse_Permutation.
  - intros less l. apply merge_sort_Permutation.
  - exact (@sortSlice_sorted stdRuntime).
Defined.

(** Modelled from the spec: [Node.updatedResource] is defined in node.go.
    The specification calls it the node's update-ingestion operation: it
    merges the resource into the node's state and returns whether anything
    observable changed. *)
Definition ingestResourceUpdate (r : CiliumNode) (n : Node) : Node * bool :=
  let n' := set_resource (Some r) n in
  (n', bool_decide (n' <> n)).

Definition samplePkg : NodePkg :=
  {| fieldName := "name";
     getNeededAddresses := fun n => neededIPs (stats n);
     recalculateLocked := fun n => (n, neededIPs (stats n) >? 0);
     updatedResource := ingestResourceUpdate;
     ResolveIPDeficit := fun n =>
       (n, if remainingInterfaces (stats n) =? 0
           then Some "no interface left" else None);
     SyncToAPIServer := fun n => n;
     NewTrigger := fun p => inl (mkTrigger p) |}.

(** The package [P] with [updatedResource] as the specification describes
    it. *)
Definition withIngest (P : NodePkg) : NodePkg :=
  {| fieldName := @fieldName P;
     getNeededAddresses := @getNeededAddresses P;
     recalculateLocked := @recalculateLocked P;
     updatedResource := ingestResourceUpdate;
     ResolveIPDeficit := @ResolveIPDeficit P;
     SyncToAPIServer := @SyncToAPIServer P;
     NewTrigger := @NewTrigger P |}.

(** A manager as [NewNodeManager] returns it over [samplePkg], and a fleet
    of three nodes with shortfalls 5, 0 and 3. *)
Definition sampleManager : NodeManager :=
  mkNodeManager ∅ 11%positive 12%positive 13%positive 14%positive
    (mkTrigger (mkParameters "eni-node-manager-resync" Second resyncTriggerFunc))
    (mkTrigger (mkParameters "eni-node-manager-deficit-resolver" Second
                             deficitResolverFunc)).

Definition emptyState : State := mkState ∅ 10%positive sampleManager [].

Definition sampleNode (nm : string) (st : nodeStatistics) : Node :=
  mkNode nm 10%positive st true None.

(** The node of the specification's scenario: available 2, used 2,
    needed 2, with one interface left. *)
Definition scenarioState : State :=
  mkState (<[1%positive := sampleNode "worker-1" (mkStats 2 2 2 1)]> ∅)
          10%positive
          (set_nodes (<["worker-1" := 1%positive]> ∅) sampleManager)
          [].

(** The same node with no interface left. *)
Definition exhaustedState : State :=
  mkState (<[1%positive := sampleNode "worker-1" (mkStats 2 2 2 0)]> ∅)
          10%positive
          (set_nodes (<["worker-1" := 1%positive]> ∅) sampleManager)
          [].

Definition fleetState : State :=
  mkState
    (<[1%positive := sampleNode "worker-1" (mkStats 2 2 5 1)]>
       (<[2%positive := sampleNode "worker-2" (mkStats 7 7 0 0)]>
          (<[3%positive := sampleNode "worker-3" (mkStats 4 1 3 0)]> ∅)))
    10%positive
    (set_nodes (<["worker-1" := 1%positive]>
                  (<["worker-2" := 2%positive]>
                     (<["worker-3" := 3%positive]> ∅)))
               sampleManager)
    [].

(** The state reached from the empty registry when the resources of
    "worker-1" and "worker-2" are discovered. *)
Definition discoveredState : State :=
  exec (forRange [EvUpdate (mkCiliumNode "worker-1" "spec-1");
                  EvUpdate (mkCiliumNode "worker-2" "spec-2")]
                 (@applyEvent samplePkg))
       emptyState.

(** * Part III: lemmas *)

(** ** Arithmetic of [int] *)

Lemma wrap_in_range z : GoInt.InRange (GoInt.wrap z).
Proof.
  unfold GoInt.InRange, GoInt.wrap, GoInt.min_int, GoInt.max_int, GoInt.modulus.
  pose proof (Z.mod_pos_bound (z - - 2 ^ 63) (2 ^ 64) ltac:(lia)). lia.
Qed.

Lemma wrap_id z : GoInt.InRange z -> GoInt.wrap z = z.
Proof.
  unfold GoInt.InRange, GoInt.wrap, GoInt.min_int, GoInt.max_int, GoInt.modulus.
  intros Hz. rewrite Z.mod_small by lia. lia.
Qed.

Lemma wrap_add_l a b : GoInt.wrap (GoInt.wrap a + b) = GoInt.wrap (a + b).
Proof.
  unfold GoInt.wrap, GoInt.modulus, GoInt.min_int.
  replace ((a - - 2 ^ 63) mod 2 ^ 64 + - 2 ^ 63 + b - - 2 ^ 63)
    with ((a - - 2 ^ 63) mod 2 ^ 64 + b) by lia.
  replace (a + b - - 2 ^ 63) with ((a - - 2 ^ 63) + b) by lia.
  rewrite Zplus_mod_idemp_l. reflexivity.
Qed.

Lemma wrap_add_r a b : GoInt.wrap (a + GoInt.wrap b) = GoInt.wrap (a + b).
Proof. rewrite Z.add_comm, wrap_add_l. f_equal. lia. Qed.

Lemma wrap_wrap a : GoInt.wrap (GoInt.wrap a) = GoInt.wrap a.
Proof. apply wrap_id, wrap_in_range. Qed.

(** Subtracting two representable values gives zero only when they are
    equal: the difference is too small to wrap around to zero. *)
Lemma sub_eq_0 a b :
  GoInt.InRange a -> GoInt.InRange b -> GoInt.sub a b = 0 <-> a = b.
Proof.
  unfold GoInt.InRange, GoInt.sub, GoInt.wrap, GoInt.min_int, GoInt.max_int,
    GoInt.modulus.
  intros Ha Hb. split.
  - intros H.
    assert (Hm : (a - b - - 2 ^ 63) mod 2 ^ 64 = 2 ^ 63) by lia.
    destruct (Z_lt_le_dec (a - b) (2 ^ 63)) as [Hlt | Hge].
    + destruct (Z_lt_le_dec (a - b) (- 2 ^ 63)) as [Hlo | Hhi].
      * replace (a - b - - 2 ^ 63)
          with ((a - b + 2 ^ 63 + 2 ^ 64) + (-1) * 2 ^ 64) in Hm by lia.
        rewrite Z_mod_plus_full, Z.mod_small in Hm by lia. lia.
      * rewrite Z.mod_small in Hm by lia. lia.
    + replace (a - b - - 2 ^ 63)
        with ((a - b + 2 ^ 63 - 2 ^ 64) + 1 * 2 ^ 64) in Hm by lia.
      rewrite Z_mod_plus_full, Z.mod_small in Hm by lia. lia.
  - intros ->. replace (b - b - - 2 ^ 63) with (2 ^ 63) by lia.
    rewrite Z.mod_small by lia. lia.
Qed.

(** ** The methods, run *)

Section Facts.
Context `{GoRuntime} `{NodePkg}.

Lemma deref_store p n s : deref p (store p n s) = n.
Proof. unfold deref, store, set_heap. cbn [heap]. by rewrite lookup_insert_eq. Qed.

Lemma deref_store_ne p q n s : p <> q -> deref p (store q n s) = deref p s.
Proof.
  intros Hpq. unfold deref, store, set_heap. cbn [heap].
  by rewrite lookup_insert_ne.
Qed.

Lemma deref_emit p c s : deref p (emit c s) = deref p s.
Proof. reflexivity. Qed.

Lemma store_store p n n' s : store p n' (store p n s) = store p n' s.
Proof. unfold store, set_heap. cbn [heap self mngr calls]. by rewrite insert_insert_eq. Qed.

Lemma foldl_snoc_map {A B} (f : A -> B) (l : list A) : forall acc,
  foldl (fun acc x => acc ++ [f x]) acc l = acc ++ map f l.
Proof.
  induction l as [| x l IH]; intros acc; cbn.
  - by rewrite app_nil_r.
  - by rewrite IH, <- app_assoc.
Qed.

Lemma forRange_cons {A} (x : A) l body s :
  exec (forRange (x :: l) body) s = exec (forRange l body) (exec (body x) s).
Proof. unfold exec. cbn [forRange]. unfold bind. by destruct (body x s). Qed.

Lemma forRange_app {A} (l1 l2 : list A) body : forall s,
  exec (forRange (l1 ++ l2) body) s = exec (forRange l2 body) (exec (forRange l1 body) s).
Proof.
  induction l1 as [| x l1 IH]; intros s; [done |].
  by rewrite <- app_comm_cons, !forRange_cons, IH.
Qed.

Lemma callsOf_app {A} (m : M A) s cs :
  calls (exec m s) = calls s ++ cs -> callsOf m s = cs.
Proof. unfold callsOf. intros ->. by rewrite drop_app_length. Qed.

Lemma GetNames_run s : GetNames s = ((mapRange (nodes (mngr s))).*1, s).
Proof.
  unfold GetNames, bind, get, ret. cbn beta iota.
  by rewrite foldl_snoc_map.
Qed.

Lemma GetNames_elem_of nodeName s :
  nodeName ∈ eval GetNames s <-> is_Some (nodes (mngr s) !! nodeName).
Proof.
  unfold eval. rewrite GetNames_run. cbn [fst].
  rewrite mapRange_perm, list_elem_of_fmap. split.
  - intros ([k p] & -> & Hkp). apply elem_of_map_to_list in Hkp. by exists p.
  - intros [p Hp]. exists (nodeName, p). split; [done |].
    by apply elem_of_map_to_list.
Qed.

Lemma GetNodesByNeededAddresses_run s :
  GetNodesByNeededAddresses s =
    (sortSlice (fun i j => neededOf s i >? neededOf s j)
               ((mapRange (nodes (mngr s))).*2), s).
Proof.
  unfold GetNodesByNeededAddresses, bind, get, ret. cbn beta iota.
  by rewrite foldl_snoc_map.
Qed.

Lemma length_snapshot s :
  length (eval GetNodesByNeededAddresses s) = size (nodes (mngr s)).
Proof.
  unfold eval. rewrite GetNodesByNeededAddresses_run. cbn [fst].
  by rewrite sortSlice_perm, length_fmap, mapRange_perm, length_map_to_list.
Qed.

Lemma Update_run resource s :
  let p := default (fresh (dom (heap s))) (nodes (mngr s) !! Name resource) in
  let s1 :=
    match nodes (mngr s) !! Name resource with
    | Some _ => s
    | None =>
        emit (CLog Info "Discovered new CiliumNode custom resource"
                   [(fieldName, LStr (Name resource))])
             (set_mngr (set_nodes (<[Name resource := p]> (nodes (mngr s))) (mngr s))
                       (store p (newNode (Name resource) (self s)) s))
    end in
  let r := updatedResource resource (deref p s1) in
  Update resource s =
    (r.2, store p r.1 (emit (CUpdatedResource p (deref p s1) resource) s1)).
Proof.
  cbn zeta. unfold Update, bind, get. cbn beta iota.
  destruct (nodes (mngr s) !! Name resource) as [p |] eqn:Hp; cbn [default].
  - unfold ret, invoke. by destruct (updatedResource _ _).
  - unfold invoke, call, modify, ret. cbn beta iota.
    by destruct (updatedResource _ _).
Qed.

Lemma registered_Update resource s :
  registered (exec (Update resource) s) = {[Name resource]} ∪ registered s.
Proof.
  unfold exec, registered. rewrite Update_run. cbn [snd].
  destruct (nodes (mngr s) !! Name resource) as [p |] eqn:Hp; cbn.
  - rewrite <- (insert_id _ _ _ Hp) at 1. by rewrite dom_insert_L.
  - by rewrite dom_insert_L.
Qed.

Lemma registered_Delete nodeName s :
  registered (exec (Delete nodeName) s) = registered s ∖ {[nodeName]}.
Proof. unfold exec, registered, Delete, modify. cbn. by rewrite dom_delete_L. Qed.

Lemma registry_wf_empty : registry_wf emptyState.
Proof. split; intros *; cbn; by rewrite lookup_empty. Qed.

Lemma registry_wf_Update resource s :
  registry_wf s -> registry_wf (exec (Update resource) s).
Proof.
  intros [Halloc Hinj]. unfold exec, registry_wf. rewrite Update_run. cbn [snd].
  destruct (nodes (mngr s) !! Name resource) as [p |] eqn:Hp; cbn.
  - split; [| done]. intros nodeName q Hq.
    apply lookup_insert_is_Some'. right. by eapply Halloc.
  - assert (Hfresh : heap s !! fresh (dom (heap s)) = None)
      by apply not_elem_of_dom, is_fresh.
    split.
    + intros nodeName q Hq. apply lookup_insert_is_Some'.
      apply lookup_insert_Some in Hq as [[_ <-] | [_ Hq]]; [by left | right].
      apply lookup_insert_is_Some'. right. by eapply Halloc.
    + intros n1 n2 q H1 H2.
      apply lookup_insert_Some in H1 as [[<- <-] | [Hn1 H1]];
        apply lookup_insert_Some in H2 as [[<- E2] | [Hn2 H2]]; try done.
      * apply Halloc in H2 as [x Hx]. congruence.
      * subst q. apply Halloc in H1 as [x Hx]. congruence.
      * by eapply Hinj.
Qed.

Lemma registry_wf_Delete nodeName s :
  registry_wf s -> registry_wf (exec (Delete nodeName) s).
Proof.
  intros [Halloc Hinj]. unfold exec, registry_wf, Delete, modify. cbn. split.
  - intros n p Hp. apply lookup_delete_Some in Hp as [_ Hp]. by eapply Halloc.
  - intros n1 n2 p H1 H2. apply lookup_delete_Some in H1 as [_ H1].
    apply lookup_delete_Some in H2 as [_ H2]. by eapply Hinj.
Qed.

Lemma registry_wf_events es : forall s,
  registry_wf s -> registry_wf (exec (forRange es applyEvent) s).
Proof.
  induction es as [| e es IH]; intros s Hwf; [done |].
  rewrite forRange_cons. apply IH.
  destruct e as [resource | nodeName]; cbn [applyEvent].
  - replace (exec (bind (Update resource) (fun _ => ret tt)) s)
      with (exec (Update resource) s)
      by (unfold exec, bind, ret; by destruct (Update resource s)).
    by apply registry_wf_Update.
  - by apply registry_wf_Delete.
Qed.

Lemma registry_wf_NoDup s :
  registry_wf s -> NoDup (map_to_list (nodes (mngr s))).*2.
Proof.
  intros [_ Hinj]. apply NoDup_fmap_2_strong; [| apply NoDup_map_to_list].
  intros [n1 p1] [n2 p2] H1 H2 Heq. cbn in Heq. subst p2.
  apply elem_of_map_to_list in H1, H2. f_equal. by eapply Hinj.
Qed.

Lemma resyncNode_run node t s :
  let v := recalculateLocked (set_resyncNeeded false (deref node s)) in
  resyncNode node t s =
    (accumulate t (stats v.1),
     mkState (<[node := SyncToAPIServer v.1]> (heap s)) (self s) (mngr s)
             (calls s ++ visitCalls node s)).
Proof.
  unfold resyncNode, visitCalls, invoke, bind, modify, call, get, ret.
  cbn beta iota. rewrite deref_store.
  destruct (recalculateLocked _) as [n1 needed] eqn:Hv.
  rewrite !deref_store. unfold enqueues, accumulate, atCapacity, availableOnNode.
  cbn [fst snd].
  destruct (needed && _) eqn:Hq; cbn beta iota;
    repeat first [rewrite deref_emit | rewrite deref_store];
    (f_equal; unfold store, emit, set_heap, deref; cbn [heap self mngr calls];
     rewrite ?lookup_insert_eq, !insert_insert_eq, <- ?app_assoc; reflexivity).
Qed.

Lemma callsOf_resyncNode node t s :
  callsOf (resyncNode node t) s = visitCalls node s.
Proof. apply callsOf_app. unfold exec. by rewrite resyncNode_run. Qed.

Lemma heap_resyncNode node t s :
  heap (exec (resyncNode node t) s) =
    <[node := SyncToAPIServer
                (recalculateLocked (set_resyncNeeded false (deref node s))).1]> (heap s).
Proof. unfold exec. by rewrite resyncNode_run. Qed.

Lemma exec_resyncNode_totals node t t' s :
  exec (resyncNode node t) s = exec (resyncNode node t') s.
Proof. unfold exec. by rewrite !resyncNode_run. Qed.

Lemma resyncLoop_cons node l t s :
  resyncLoop (node :: l) t s =
    resyncLoop l (eval (resyncNode node t) s) (exec (resyncNode node t) s).
Proof.
  cbn [resyncLoop]. unfold bind, eval, exec.
  by destruct (resyncNode node t s).
Qed.

Lemma resyncLoop_calls l : forall t s,
  calls (exec (resyncLoop l t) s) = calls s ++ loopCalls l s.
Proof.
  induction l as [| node l IH]; intros t s.
  - cbn. by rewrite app_nil_r.
  - unfold exec in *. rewrite resyncLoop_cons, IH. cbn [loopCalls].
    rewrite (exec_resyncNode_totals node zeroTotals t).
    unfold exec. rewrite resyncNode_run. cbn [snd calls].
    by rewrite app_assoc.
Qed.

Lemma resyncLoop_mngr l : forall t s,
  mngr (exec (resyncLoop l t) s) = mngr s /\ self (exec (resyncLoop l t) s) = self s.
Proof.
  induction l as [| node l IH]; intros t s; [done |].
  unfold exec in *. rewrite resyncLoop_cons.
  destruct (IH (eval (resyncNode node t) s) (exec (resyncNode node t) s)) as [-> ->].
  unfold exec. by rewrite resyncNode_run.
Qed.

Lemma recalculated_visitCalls node s :
  recalculated (visitCalls node s) =
    [(node, set_resyncNeeded false (deref node s))].
Proof. unfold visitCalls. cbn. by destruct (enqueues _). Qed.

Lemma synced_visitCalls node s :
  synced (visitCalls node s) =
    [(node, (recalculateLocked (set_resyncNeeded false (deref node s))).1)].
Proof. unfold visitCalls. cbn. by destruct (enqueues _). Qed.

Lemma triggered_visitCalls node s :
  let v := recalculateLocked (set_resyncNeeded false (deref node s)) in
  triggered (visitCalls node s) =
    if enqueues v then [(deficitResolver (mngr s), name v.1)] else [].
Proof. unfold visitCalls. cbn. by destruct (enqueues _). Qed.

Lemma metrics_visitCalls node s : metrics (visitCalls node s) = [].
Proof. unfold visitCalls. cbn. by destruct (enqueues _). Qed.

Lemma visits_app cs1 cs2 : visits (cs1 ++ cs2) = visits cs1 ++ visits cs2.
Proof. unfold visits, recalculated. by rewrite omap_app, map_app. Qed.

Lemma visits_visitCalls node s :
  visits (visitCalls node s) =
    [recalculateLocked (set_resyncNeeded false (deref node s))].
Proof. unfold visits. by rewrite recalculated_visitCalls. Qed.

(** The loop visits the nodes of [l] in the order of [l]: one
    [recalculateLocked] and one [SyncToAPIServer] per element. *)
Lemma loopCalls_order l : forall s,
  (recalculated (loopCalls l s)).*1 = l /\ (synced (loopCalls l s)).*1 = l.
Proof.
  induction l as [| node l IH]; intros s; [done |].
  cbn [loopCalls]. unfold recalculated, synced in *.
  rewrite !omap_app, !fmap_app.
  destruct (IH (exec (resyncNode node zeroTotals) s)) as [-> ->].
  fold (recalculated (visitCalls node s)). fold (synced (visitCalls node s)).
  by rewrite recalculated_visitCalls, synced_visitCalls.
Qed.

Lemma loopCalls_metrics l : forall s, metrics (loopCalls l s) = [].
Proof.
  induction l as [| node l IH]; intros s; [done |].
  cbn [loopCalls]. unfold metrics in *.
  rewrite List.filter_app, IH. fold (metrics (visitCalls node s)).
  by rewrite metrics_visitCalls.
Qed.

Lemma loopCalls_flag l : forall s,
  Forall (fun pn => resyncNeeded pn.2 = false) (recalculated (loopCalls l s)).
Proof.
  induction l as [| node l IH]; intros s; [by constructor |].
  cbn [loopCalls]. unfold recalculated in *. rewrite omap_app.
  apply Forall_app. split; [| apply IH].
  fold (recalculated (visitCalls node s)). rewrite recalculated_visitCalls.
  by repeat constructor.
Qed.

Lemma loopCalls_triggered l : forall s,
  triggered (loopCalls l s) =
    map (fun v => (deficitResolver (mngr s), name v.1))
        (List.filter enqueues (visits (loopCalls l s))).
Proof.
  induction l as [| node l IH]; intros s; [done |].
  cbn [loopCalls]. rewrite visits_app, List.filter_app, map_app.
  unfold triggered in *. rewrite omap_app, IH.
  fold (triggered (visitCalls node s)).
  rewrite triggered_visitCalls, visits_visitCalls.
  assert (Hm : mngr (exec (resyncNode node zeroTotals) s) = mngr s)
    by (unfold exec; by rewrite resyncNode_run).
  rewrite Hm. f_equal. cbn [List.filter].
  by destruct (enqueues _).
Qed.

Lemma loopCalls_allocatedIPs l : forall s, allocatedIPs (loopCalls l s) = [].
Proof.
  induction l as [| node l IH]; intros s; [done |].
  cbn [loopCalls]. unfold allocatedIPs in *. rewrite omap_app, IH, app_nil_r.
  unfold visitCalls. cbn. by destruct (enqueues _).
Qed.

Lemma loopCalls_nodesAtCapacitySet l : forall s,
  nodesAtCapacitySet (loopCalls l s) = [].
Proof.
  induction l as [| node l IH]; intros s; [done |].
  cbn [loopCalls]. unfold nodesAtCapacitySet in *. rewrite omap_app, IH, app_nil_r.
  unfold visitCalls. cbn. by destruct (enqueues _).
Qed.

Lemma length_visits_loopCalls l s : length (visits (loopCalls l s)) = length l.
Proof.
  unfold visits. rewrite length_map.
  rewrite <- (proj1 (loopCalls_order l s)) at 2. by rewrite length_fmap.
Qed.

Lemma resyncLoop_totals l : forall t s,
  eval (resyncLoop l t) s =
    foldl accumulate t (map (fun v => stats v.1) (visits (loopCalls l s))).
Proof.
  induction l as [| node l IH]; intros t s; [done |].
  unfold eval in *. rewrite resyncLoop_cons, IH. cbn [loopCalls].
  rewrite visits_app, map_app, foldl_app, visits_visitCalls.
  rewrite (exec_resyncNode_totals node zeroTotals t).
  unfold eval. by rewrite resyncNode_run.
Qed.

Lemma resyncLoop_flags
  (Hrecalc : forall n, resyncNeeded (recalculateLocked n).1 = resyncNeeded n)
  (Hsync : forall n, resyncNeeded (SyncToAPIServer n) = resyncNeeded n) l :
  forall t s p,
    p ∈ l \/ resyncNeeded (deref p s) = false ->
    resyncNeeded (deref p (exec (resyncLoop l t) s)) = false.
Proof.
  induction l as [| node l IH]; intros t s p Hp.
  - destruct Hp as [Hp | Hp]; [by apply elem_of_nil in Hp | done].
  - unfold exec. rewrite resyncLoop_cons. apply IH.
    destruct (decide (p ∈ l)) as [Hin | Hnin]; [by left | right].
    unfold deref. rewrite heap_resyncNode.
    destruct (decide (p = node)) as [-> | Hne].
    + rewrite lookup_insert_eq. cbn [from_option id]. by rewrite Hsync, Hrecalc.
    + rewrite lookup_insert_ne by done.
      destruct Hp as [Hp | Hp]; [| done].
      apply elem_of_cons in Hp. by destruct Hp.
Qed.

Lemma Resync_run s :
  let snapshot := eval GetNodesByNeededAddresses s in
  let s' := exec (resyncLoop snapshot zeroTotals) s in
  let t := eval (resyncLoop snapshot zeroTotals) s in
  Resync s =
    (tt, mkState (heap s') (self s') (mngr s')
                 (calls s ++ loopCalls snapshot s ++ gauges t)).
Proof.
  cbn zeta. unfold eval, exec, Resync, bind.
  rewrite GetNodesByNeededAddresses_run. cbn [fst snd].
  set (snapshot := sortSlice _ _).
  pose proof (resyncLoop_calls snapshot zeroTotals s) as Hc.
  unfold exec in Hc.
  destruct (resyncLoop snapshot zeroTotals s) as [t s'] eqn:Hl.
  cbn [fst snd] in *.
  unfold call, modify, emit, gauges. cbn [heap self mngr calls].
  rewrite Hc, <- !app_assoc. reflexivity.
Qed.

Lemma callsOf_Resync s :
  let snapshot := eval GetNodesByNeededAddresses s in
  callsOf Resync s =
    loopCalls snapshot s
      ++ gauges (foldl accumulate zeroTotals
                       (map (fun v => stats v.1) (visits (loopCalls snapshot s)))).
Proof.
  cbn zeta. apply callsOf_app. unfold exec at 1. rewrite Resync_run.
  cbn [snd calls]. by rewrite resyncLoop_totals.
Qed.

Lemma exec_Resync s :
  let s' := exec (resyncLoop (eval GetNodesByNeededAddresses s) zeroTotals) s in
  heap (exec Resync s) = heap s' /\ mngr (exec Resync s) = mngr s.
Proof.
  cbn zeta. unfold exec at 1 3. rewrite Resync_run. cbn [snd heap mngr].
  split; [done |]. apply resyncLoop_mngr.
Qed.

Lemma visits_gauges t : visits (gauges t) = [].
Proof. reflexivity. Qed.

Lemma visits_callsOf_Resync s :
  visits (callsOf Resync s) =
    visits (loopCalls (eval GetNodesByNeededAddresses s) s).
Proof. by rewrite callsOf_Resync, visits_app, visits_gauges, app_nil_r. Qed.

Lemma enqueues_true v :
  enqueues v = true <-> v.2 = true /\ 0 < remainingInterfaces (stats v.1).
Proof. unfold enqueues. by rewrite andb_true_iff, Z.gtb_ltb, Z.ltb_lt. Qed.

Lemma atCapacity_true st :
  atCapacity st = true <->
  remainingInterfaces st = 0 /\ GoInt.sub (availableIPs st) (usedIPs st) = 0.
Proof. unfold atCapacity, availableOnNode. by rewrite andb_true_iff, !Z.eqb_eq. Qed.

Lemma zeroTotals_in_range : GoInt.InRange 0.
Proof. unfold GoInt.InRange, GoInt.min_int, GoInt.max_int. lia. Qed.

Lemma totals_in_range_accumulate t st :
  GoInt.InRange (nodesAtCapacity t) ->
  GoInt.InRange (nodesAtCapacity (accumulate t st)).
Proof.
  intros Ht. unfold accumulate. cbn [nodesAtCapacity].
  destruct (atCapacity st); [apply wrap_in_range | done].
Qed.

Lemma foldl_accumulate sts : forall t,
  GoInt.InRange (totalUsed t) -> GoInt.InRange (totalAvailable t) ->
  GoInt.InRange (totalNeeded t) -> GoInt.InRange (totalRemainingInterfaces t) ->
  GoInt.InRange (nodesAtCapacity t) ->
  let t' := foldl accumulate t sts in
  totalUsed t' = GoInt.wrap (totalUsed t + sumZ (map usedIPs sts)) /\
  totalAvailable t' =
    GoInt.wrap (totalAvailable t
                + sumZ (map (fun st => availableIPs st - usedIPs st) sts)) /\
  totalNeeded t' = GoInt.wrap (totalNeeded t + sumZ (map neededIPs sts)) /\
  totalRemainingInterfaces t' =
    GoInt.wrap (totalRemainingInterfaces t + sumZ (map remainingInterfaces sts)) /\
  nodesAtCapacity t' =
    GoInt.wrap (nodesAtCapacity t
                + Z.of_nat (length (List.filter atCapacity sts))).
Proof.
  induction sts as [| st sts IH]; intros t H1 H2 H3 H4 H5.
  - cbn. rewrite !Z.add_0_r, !wrap_id; done.
  - cbn [foldl]. cbn zeta in IH.
    destruct (IH (accumulate t st)) as (E1 & E2 & E3 & E4 & E5);
      try (unfold accumulate; cbn; apply wrap_in_range).
    { by apply totals_in_range_accumulate. }
    cbn zeta. rewrite E1, E2, E3, E4, E5. clear IH E1 E2 E3 E4 E5.
    unfold accumulate, availableOnNode, GoInt.add, GoInt.sub.
    cbn [totalUsed totalAvailable totalNeeded totalRemainingInterfaces
         nodesAtCapacity map sumZ foldr List.filter].
    rewrite !wrap_add_l. unfold sumZ.
    repeat split; try (f_equal; lia).
    + match goal with
      | |- GoInt.wrap (?a + GoInt.wrap ?x + ?r) = _ =>
          replace (a + GoInt.wrap x + r) with (GoInt.wrap x + (a + r)) by lia
      end.
      rewrite wrap_add_l. f_equal. lia.
    + destruct (atCapacity st) eqn:Hc.
      * rewrite wrap_add_l. f_equal. cbn [length]. lia.
      * done.
Qed.

Lemma Resync_totals s :
  let sts := map (fun v => stats v.1) (visits (callsOf Resync s)) in
  callsOf Resync s =
    loopCalls (eval GetNodesByNeededAddresses s) s
      ++ gauges (mkTotals
           (GoInt.wrap (sumZ (map usedIPs sts)))
           (GoInt.wrap (sumZ (map (fun st => availableIPs st - usedIPs st) sts)))
           (GoInt.wrap (sumZ (map neededIPs sts)))
           (GoInt.wrap (sumZ (map remainingInterfaces sts)))
           (GoInt.wrap (Z.of_nat (length (List.filter atCapacity sts))))).
Proof.
  cbn zeta. rewrite visits_callsOf_Resync, callsOf_Resync. cbn zeta.
  set (sts := map _ (visits _)).
  destruct (foldl_accumulate sts zeroTotals) as (E1 & E2 & E3 & E4 & E5);
    try apply zeroTotals_in_range.
  cbn [zeroTotals totalUsed totalAvailable totalNeeded totalRemainingInterfaces
       nodesAtCapacity] in *.
  rewrite !Z.add_0_l in *.
  unfold gauges. by rewrite E1, E2, E3, E4, E5.
Qed.

Lemma deficitResolverHandler_cons nodeName reasons s :
  exists s1,
    exec (deficitResolverHandler (nodeName :: reasons)) s
      = exec (deficitResolverHandler reasons) s1 /\
    calls s1 = calls s ++ resolveCalls nodeName s /\
    mngr s1 = mngr s /\ self s1 = self s.
Proof.
  unfold deficitResolverHandler. rewrite forRange_cons.
  eexists. split; [reflexivity |].
  unfold exec, bind, Get, get, ret, resolveCalls. cbn.
  destruct (nodes (mngr s) !! nodeName) as [node |] eqn:Hn; [| done].
  unfold invoke. cbn.
  destruct (ResolveIPDeficit (deref node s)) as [n' [err |]];
    cbn; by rewrite <- ?app_assoc.
Qed.

Lemma deficitResolverHandler_run reasons : forall s,
  let s' := exec (deficitResolverHandler reasons) s in
  mngr s' = mngr s /\
  exists cs,
    calls s' = calls s ++ cs /\
    (resolved cs).*1 = omap (fun nodeName => nodes (mngr s) !! nodeName) reasons /\
    disappeared cs = filter (fun nodeName => nodes (mngr s) !! nodeName = None) reasons /\
    unresolved cs = omap (fun pn => (ResolveIPDeficit pn.2).2) (resolved cs) /\
    Forall resolveOrWarning cs.
Proof.
  induction reasons as [| nodeName reasons IH]; intros s; cbn zeta.
  - split; [done |]. exists []. by rewrite app_nil_r.
  - destruct (deficitResolverHandler_cons nodeName reasons s)
      as (s1 & -> & Hc & Hm & _).
    destruct (IH s1) as (Hm' & cs & Hcs & Hres & Hdis & Hun & Hall).
    split; [congruence |].
    exists (resolveCalls nodeName s ++ cs).
    rewrite Hcs, Hc, <- app_assoc. split; [done |].
    rewrite Hm in *.
    unfold resolved, disappeared, unresolved in *.
    rewrite !omap_app, fmap_app, Hres, Hdis, Hun, Forall_app, filter_cons.
    cbn [omap]. unfold resolveCalls.
    destruct (nodes (mngr s) !! nodeName) as [node |] eqn:Hn.
    + rewrite decide_False by done.
      destruct (ResolveIPDeficit (deref node s)) as [n' [err |]] eqn:Hr;
        cbn; rewrite ?Hr, ?Hn; cbn; repeat split; try done;
        repeat constructor.
    + rewrite decide_True by done. cbn. rewrite ?Hn. repeat split; try done.
      repeat constructor.
Qed.

End Facts.

(** ** The registry and the heap *)

Section MoreFacts.
Context `{GoRuntime} `{NodePkg}.

Lemma state_eq (a b : State) :
  heap a = heap b -> self a = self b -> mngr a = mngr b -> calls a = calls b ->
  a = b.
Proof. destruct a, b. cbn. by intros -> -> -> ->. Qed.

Lemma exec_Update resource s :
  let known := nodes (mngr s) !! Name resource in
  let p := default (fresh (dom (heap s))) known in
  let n0 := match known with
            | Some _ => deref p s
            | None => newNode (Name resource) (self s)
            end in
  let s' := exec (Update resource) s in
  heap s' = <[p := (updatedResource resource n0).1]> (heap s) /\
  mngr s' = match known with
            | Some _ => mngr s
            | None => set_nodes (<[Name resource := p]> (nodes (mngr s))) (mngr s)
            end /\
  self s' = self s /\
  calls s' = calls s
    ++ match known with
       | Some _ => []
       | None => [CLog Info "Discovered new CiliumNode custom resource"
                       [(fieldName, LStr (Name resource))]]
       end
    ++ [CUpdatedResource p n0 resource] /\
  eval (Update resource) s = (updatedResource resource n0).2.
Proof.
  cbn zeta. unfold exec, eval. rewrite Update_run.
  destruct (nodes (mngr s) !! Name resource) as [p |] eqn:Hp; cbn [default fst snd].
  - repeat split.
  - rewrite deref_emit.
    change (deref ?p (set_mngr ?m ?s0)) with (deref p s0).
    rewrite deref_store.
    unfold store, emit, set_mngr, set_nodes, set_heap. cbn [heap mngr calls nodes self].
    rewrite insert_insert_eq, <- app_assoc. repeat split.
Qed.

Lemma exec_Delete nodeName s :
  exec (Delete nodeName) s =
    mkState (heap s) (self s)
            (set_nodes (delete nodeName (nodes (mngr s))) (mngr s)) (calls s).
Proof. reflexivity. Qed.

Lemma mapRange_empty : mapRange ∅ = [].
Proof.
  apply Permutation_nil_r. by rewrite mapRange_perm, map_to_list_empty.
Qed.

Lemma sortSlice_nil less : sortSlice less [] = [].
Proof. apply Permutation_nil_r, sortSlice_perm. Qed.

Lemma snapshot_elem_of p s :
  p ∈ eval GetNodesByNeededAddresses s <->
  exists nodeName, nodes (mngr s) !! nodeName = Some p.
Proof.
  unfold eval. rewrite GetNodesByNeededAddresses_run. cbn [fst].
  rewrite sortSlice_perm, mapRange_perm, list_elem_of_fmap. split.
  - intros ([k q] & -> & Hkq). apply elem_of_map_to_list in Hkq. by exists k.
  - intros [k Hk]. exists (k, p). split; [done |]. by apply elem_of_map_to_list.
Qed.

Lemma snapshot_NoDup s :
  registry_wf s -> NoDup (eval GetNodesByNeededAddresses s).
Proof.
  intros Hwf. unfold eval. rewrite GetNodesByNeededAddresses_run. cbn [fst].
  rewrite sortSlice_perm, mapRange_perm. by apply registry_wf_NoDup.
Qed.

(** The loop of [Resync] over distinct nodes: every node of the list is
    replaced by what [recalculateLocked] and [SyncToAPIServer] make of it,
    and nothing else in the heap moves. *)
Lemma heap_resyncLoop l : forall t s,
  NoDup l ->
  forall p,
    heap (exec (resyncLoop l t) s) !! p =
      if decide (p ∈ l)
      then Some (SyncToAPIServer
                   (recalculateLocked (set_resyncNeeded false (deref p s))).1)
      else heap s !! p.
Proof.
  induction l as [| node l IH]; intros t s Hnd p.
  - by rewrite decide_False by apply not_elem_of_nil.
  - apply NoDup_cons in Hnd as [Hnode Hnd].
    unfold exec. rewrite resyncLoop_cons.
    fold (exec (resyncLoop l (eval (resyncNode node t) s)) (exec (resyncNode node t) s)).
    rewrite IH by done.
    assert (Hother : forall q, q <> node ->
              deref q (exec (resyncNode node t) s) = deref q s).
    { intros q Hq. unfold deref. by rewrite heap_resyncNode, lookup_insert_ne. }
    destruct (decide (p ∈ l)) as [Hin | Hnin].
    + rewrite decide_True by (apply elem_of_cons; by right).
      rewrite Hother; [done |]. by intros ->.
    + rewrite heap_resyncNode. destruct (decide (p = node)) as [-> | Hne].
      * rewrite decide_True by (apply elem_of_cons; by left).
        by rewrite lookup_insert_eq.
      * rewrite decide_False by (rewrite elem_of_cons; by intros [? | ?]).
        by rewrite lookup_insert_ne.
Qed.

Lemma recalculated_loopCalls l : forall s,
  NoDup l ->
  recalculated (loopCalls l s) =
    map (fun p => (p, set_resyncNeeded false (deref p s))) l.
Proof.
  induction l as [| node l IH]; intros s Hnd; [done |].
  apply NoDup_cons in Hnd as [Hnode Hnd].
  cbn [loopCalls map]. unfold recalculated in *. rewrite omap_app.
  fold (recalculated (visitCalls node s)). rewrite recalculated_visitCalls.
  rewrite IH by done. cbn [app]. f_equal.
  apply map_ext_in. intros q Hq. f_equal. f_equal.
  unfold deref. rewrite heap_resyncNode, lookup_insert_ne; [done |].
  intros ->. apply Hnode. by apply list_elem_of_In.
Qed.

Lemma synced_loopCalls l : forall s,
  synced (loopCalls l s) =
    map (fun pn => (pn.1, (recalculateLocked pn.2).1)) (recalculated (loopCalls l s)).
Proof.
  induction l as [| node l IH]; intros s; [done |].
  cbn [loopCalls]. unfold synced, recalculated in *.
  rewrite !omap_app, map_app, IH. f_equal.
  fold (synced (visitCalls node s)). fold (recalculated (visitCalls node s)).
  by rewrite synced_visitCalls, recalculated_visitCalls.
Qed.

Lemma availableENIs_loopCalls l : forall s, availableENIs (loopCalls l s) = [].
Proof.
  induction l as [| node l IH]; intros s; [done |].
  cbn [loopCalls]. unfold availableENIs in *. rewrite omap_app, IH, app_nil_r.
  unfold visitCalls. cbn. by destruct (enqueues _).
Qed.

Lemma deficitResolverHandler_heap_cons nodeName reasons s :
  exists s1,
    exec (deficitResolverHandler (nodeName :: reasons)) s
      = exec (deficitResolverHandler reasons) s1 /\
    mngr s1 = mngr s /\
    heap s1 = match nodes (mngr s) !! nodeName with
              | Some q => <[q := (ResolveIPDeficit (deref q s)).1]> (heap s)
              | None => heap s
              end.
Proof.
  unfold deficitResolverHandler. rewrite forRange_cons.
  eexists. split; [reflexivity |].
  unfold exec, bind, Get, get, ret. cbn.
  destruct (nodes (mngr s) !! nodeName) as [q |] eqn:Hq; [| done].
  unfold invoke. cbn.
  by destruct (ResolveIPDeficit (deref q s)) as [n' [err |]].
Qed.

(** The deficit resolver leaves alone every node it is not asked about. *)
Lemma heap_deficitResolverHandler reasons : forall s p,
  p ∉ omap (fun nodeName => nodes (mngr s) !! nodeName) reasons ->
  heap (exec (deficitResolverHandler reasons) s) !! p = heap s !! p.
Proof.
  induction reasons as [| nodeName reasons IH]; intros s p Hp; [done |].
  destruct (deficitResolverHandler_heap_cons nodeName reasons s)
    as (s1 & -> & Hm & Hh).
  csimpl in Hp. rewrite IH.
  - rewrite Hh.
    destruct (nodes (mngr s) !! nodeName) as [q |] eqn:Hq; [| done].
    apply not_elem_of_cons in Hp as [Hne _]. by rewrite lookup_insert_ne.
  - rewrite Hm.
    destruct (nodes (mngr s) !! nodeName) as [q |]; [| done].
    by apply not_elem_of_cons in Hp as [_ Hp].
Qed.

Lemma allocated_deficitResolverHandler reasons : forall s p,
  is_Some (heap s !! p) ->
  is_Some (heap (exec (deficitResolverHandler reasons) s) !! p).
Proof.
  induction reasons as [| nodeName reasons IH]; intros s p Hp; [done |].
  destruct (deficitResolverHandler_heap_cons nodeName reasons s)
    as (s1 & -> & Hm & Hh).
  apply IH. rewrite Hh.
  destruct (nodes (mngr s) !! nodeName) as [q |]; [| done].
  apply lookup_insert_is_Some'. by right.
Qed.

Lemma allocated_resyncLoop l : forall t s p,
  is_Some (heap s !! p) -> is_Some (heap (exec (resyncLoop l t) s) !! p).
Proof.
  induction l as [| node l IH]; intros t s p Hp; [done |].
  unfold exec. rewrite resyncLoop_cons. apply IH.
  rewrite heap_resyncNode. apply lookup_insert_is_Some'. by right.
Qed.

Lemma registry_wf_Resync s : registry_wf s -> registry_wf (exec Resync s).
Proof.
  intros [Halloc Hinj]. destruct (exec_Resync s) as [Hh Hm].
  unfold registry_wf. rewrite Hh, Hm. split; [| done].
  intros nodeName p Hp. apply allocated_resyncLoop. by eapply Halloc.
Qed.

Lemma registry_wf_deficitResolverHandler reasons s :
  registry_wf s -> registry_wf (exec (deficitResolverHandler reasons) s).
Proof.
  intros [Halloc Hinj].
  destruct (deficitResolverHandler_run reasons s) as (Hm & _).
  unfold registry_wf. rewrite Hm. split; [| done].
  intros nodeName p Hp. apply allocated_deficitResolverHandler. by eapply Halloc.
Qed.

(** In a well-formed registry every visit of a pass finds its node as the
    pass found it at the start: no visit touches the node of another. *)
Lemma visits_Resync_wf s :
  registry_wf s ->
  visits (callsOf Resync s) =
    map (fun p => recalculateLocked (set_resyncNeeded false (deref p s)))
        (eval GetNodesByNeededAddresses s).
Proof.
  intros Hwf. rewrite visits_callsOf_Resync. unfold visits.
  rewrite recalculated_loopCalls by by apply snapshot_NoDup.
  by rewrite map_map.
Qed.

Lemma sumZ_perm l1 l2 : l1 ≡ₚ l2 -> sumZ l1 = sumZ l2.
Proof.
  unfold sumZ. induction 1 as [| x l1 l2 _ IH | x y l | l1 l2 l3 _ IH1 _ IH2];
    cbn; lia.
Qed.

Lemma sumZ_map_perm {A} (f : A -> Z) (l1 l2 : list A) :
  l1 ≡ₚ l2 -> sumZ (map f l1) = sumZ (map f l2).
Proof. intros Hl. apply sumZ_perm. by apply (fmap_Permutation f). Qed.

Lemma length_filter_perm {A} (f : A -> bool) (l1 l2 : list A) :
  l1 ≡ₚ l2 -> length (List.filter f l1) = length (List.filter f l2).
Proof.
  induction 1 as [| x l1 l2 _ IH | x y l | l1 l2 l3 _ IH1 _ IH2]; cbn.
  - done.
  - destruct (f x); cbn; lia.
  - destruct (f x), (f y); cbn; lia.
  - lia.
Qed.

Lemma recalculated_callsOf_Resync s :
  recalculated (callsOf Resync s)
  = recalculated (loopCalls (eval GetNodesByNeededAddresses s) s).
Proof.
  rewrite callsOf_Resync. cbn zeta. unfold recalculated.
  rewrite omap_app. cbn [gauges omap]. by rewrite app_nil_r.
Qed.

End MoreFacts.

(** ** The sample states are well formed *)

Ltac registry_wf_by_computation :=
  split;
  [ match goal with
    | |- forall nodeName p, nodes (mngr ?s) !! nodeName = Some p -> _ =>
        let Hall := fresh "Hall" in
        assert (Hall : map_Forall (fun _ p => is_Some (heap s !! p)) (nodes (mngr s)))
          by (apply (bool_decide_unpack _); vm_compute; exact I);
        intros nodeName p Hp; exact (Hall nodeName p Hp)
    end
  | match goal with
    | |- forall n1 n2 p, nodes (mngr ?s) !! n1 = Some p -> _ =>
        let Hall := fresh "Hall" in
        assert (Hall : map_Forall
                         (fun n1 p => map_Forall (fun n2 q => q = p -> n1 = n2)
                                                 (nodes (mngr s)))
                         (nodes (mngr s)))
          by (apply (bool_decide_unpack _); vm_compute; exact I);
        intros n1 n2 p H1 H2; exact (Hall n1 p H1 n2 p H2 eq_refl)
    end ].

Lemma registry_wf_fleetState : registry_wf fleetState.
Proof. registry_wf_by_computation. Qed.

Lemma registry_wf_scenarioState : registry_wf scenarioState.
Proof. registry_wf_by_computation. Qed.

Lemma registry_wf_exhaustedState : registry_wf exhaustedState.
Proof. registry_wf_by_computation. Qed.

(** * Part IV: the properties *)

Section Claims.
Context `{GoRuntime} `{NodePkg}.

(** C1. [GetNodesByNeededAddresses] leaves the state as it is and returns
    a list that holds every node of the registry exactly once (it is a
    permutation of the registry's entries), in non-increasing order of the
    nodes' needed addresses; in a registry built by [Update] and [Delete]
    no node occurs twice.  When the shortfalls of the registered nodes
    are 5, 0 and 3, the shortfalls along the returned list are 5, 3, 0. *)
Theorem GetNodesByNeededAddresses_sorted_snapshot (s : State) :
  let l := eval GetNodesByNeededAddresses s in
  let all := (map_to_list (nodes (mngr s))).*2 in
  exec GetNodesByNeededAddresses s = s /\
  l ≡ₚ all /\
  (registry_wf s -> NoDup l) /\
  StronglySorted (fun a b => neededOf s b <= neededOf s a) l /\
  (neededOf s <$> all ≡ₚ [5; 0; 3] -> neededOf s <$> l = [5; 3; 0]).
Proof.
  cbn zeta. unfold eval, exec. rewrite GetNodesByNeededAddresses_run. cbn [fst snd].
  assert (Hperm : sortSlice (fun i j => neededOf s i >? neededOf s j)
                            (mapRange (nodes (mngr s))).*2
                  ≡ₚ (map_to_list (nodes (mngr s))).*2).
  { rewrite sortSlice_perm. by rewrite mapRange_perm. }
  assert (Hsorted := sortSlice_sorted (neededOf s) (mapRange (nodes (mngr s))).*2).
  repeat split; [done | | done |].
  { intros Hwf. rewrite Hperm. by apply registry_wf_NoDup. }
  intros Hfleet.
  assert (Hanti : AntiSymm (=) (fun a b : Z => b <= a)) by (intros a b; lia).
  apply (StronglySorted_unique (fun a b : Z => b <= a)).
  - eapply StronglySorted_fmap; [| exact Hsorted]. auto.
  - repeat constructor; lia.
  - rewrite Hperm, Hfleet. apply (bool_decide_unpack _). by vm_compute.
Qed.

(** C2. A [Resync] pass visits every node of the snapshot, in the order of
    the snapshot.  A visit calls [TriggerWithReason] on the deficit
    resolver with the node's name exactly when [recalculateLocked] returned
    true and the node's remaining interfaces are positive, and it makes no
    other trigger call; over the whole pass the trigger calls are the
    names of the visited nodes for which this holds, in the order of the
    visits.  For a node that [recalculateLocked] leaves with available 2,
    used 2 and needed 2 while returning true, the name is enqueued exactly
    when its remaining interfaces are positive.  In a well-formed registry
    every visit finds its node as it was when the pass started, so the
    trigger calls of the pass are read off the snapshot alone: a name is
    enqueued exactly when a registered node has the two conditions. *)
Theorem Resync_enqueues_iff_needed_and_capacity (s : State) :
  let snapshot := eval GetNodesByNeededAddresses s in
  let visit p := recalculateLocked (set_resyncNeeded false (deref p s)) in
  let enqueue (v : Node * bool) := (deficitResolver (mngr s), name v.1) in
  (forall node t s',
     let v := recalculateLocked (set_resyncNeeded false (deref node s')) in
     let enqueued := triggered (callsOf (resyncNode node t) s') in
     ((deficitResolver (mngr s'), name v.1) ∈ enqueued <->
        v.2 = true /\ 0 < remainingInterfaces (stats v.1)) /\
     (forall e, e ∈ enqueued -> e = (deficitResolver (mngr s'), name v.1)) /\
     (length enqueued <= 1)%nat) /\
  triggered (callsOf Resync s) =
    map (fun v => (deficitResolver (mngr s), name v.1))
        (List.filter enqueues (visits (callsOf Resync s))) /\
  (forall node t s' n remaining,
     recalculateLocked (set_resyncNeeded false (deref node s')) = (n, true) ->
     stats n = mkStats 2 2 2 remaining ->
     ((deficitResolver (mngr s'), name n) ∈ triggered (callsOf (resyncNode node t) s')
      <-> 0 < remaining)) /\
  (recalculated (callsOf Resync s)).*1 = snapshot /\
  length (visits (callsOf Resync s)) = size (nodes (mngr s)) /\
  (registry_wf s ->
     visits (callsOf Resync s) = map visit snapshot /\
     triggered (callsOf Resync s)
       = map enqueue (List.filter enqueues (map visit snapshot)) /\
     (forall e, e ∈ triggered (callsOf Resync s) <->
        exists nodeName p,
          nodes (mngr s) !! nodeName = Some p /\
          (visit p).2 = true /\ 0 < remainingInterfaces (stats (visit p).1) /\
          e = enqueue (visit p))).
Proof.
  cbn zeta.
  assert (Hvisit : forall node t s',
     let v := recalculateLocked (set_resyncNeeded false (deref node s')) in
     let enqueued := triggered (callsOf (resyncNode node t) s') in
     ((deficitResolver (mngr s'), name v.1) ∈ enqueued <->
        v.2 = true /\ 0 < remainingInterfaces (stats v.1)) /\
     (forall e, e ∈ enqueued -> e = (deficitResolver (mngr s'), name v.1)) /\
     (length enqueued <= 1)%nat).
  { intros node t s'. cbn zeta.
    rewrite callsOf_resyncNode, triggered_visitCalls. cbn zeta.
    rewrite <- enqueues_true.
    destruct (enqueues _); repeat split.
    - intros _. apply list_elem_of_singleton. reflexivity.
    - intros e He. by apply list_elem_of_singleton in He.
    - cbn. lia.
    - intros He. by apply elem_of_nil in He.
    - done.
    - intros e He. by apply elem_of_nil in He.
    - cbn. lia. }
  assert (Hpass : triggered (callsOf Resync s) =
    map (fun v => (deficitResolver (mngr s), name v.1))
        (List.filter enqueues (visits (callsOf Resync s)))).
  { rewrite visits_callsOf_Resync, callsOf_Resync. cbn zeta.
    unfold triggered. rewrite omap_app. cbn [gauges omap]. rewrite app_nil_r.
    apply loopCalls_triggered. }
  split; [exact Hvisit |]. split; [exact Hpass |]. split.
  { intros node t s' n remaining Hv Hst.
    destruct (Hvisit node t s') as (Hiff & _). rewrite Hv in Hiff.
    cbn [fst snd] in Hiff. rewrite Hiff, Hst. cbn. intuition. }
  split.
  { rewrite recalculated_callsOf_Resync. apply loopCalls_order. }
  split.
  { by rewrite visits_callsOf_Resync, length_visits_loopCalls, length_snapshot. }
  intros Hwf.
  pose proof (visits_Resync_wf s Hwf) as Hvs.
  split; [exact Hvs |]. split; [by rewrite Hpass, Hvs |].
  intros e. rewrite Hpass, Hvs. rewrite list_elem_of_In, in_map_iff. split.
  - intros (v & <- & Hv). apply filter_In in Hv as [Hv Henq].
    apply in_map_iff in Hv as (p & <- & Hp).
    apply list_elem_of_In, snapshot_elem_of in Hp as [nodeName Hp].
    apply enqueues_true in Henq as [Hneeded Hremaining].
    by exists nodeName, p.
  - intros (nodeName & p & Hp & Hneeded & Hremaining & ->).
    exists (recalculateLocked (set_resyncNeeded false (deref p s))).
    split; [done |]. apply filter_In. split.
    + apply in_map_iff. exists p. split; [done |].
      apply list_elem_of_In, snapshot_elem_of. by exists nodeName.
    + by apply enqueues_true.
Qed.

(** C3. A [Resync] pass visits every node of the snapshot.  A visited
    node adds one to the at-capacity counter exactly when its remaining
    interfaces are zero and [availableIPs - usedIPs] is zero, both read
    after [recalculateLocked]; for counters that fit in an [int] the
    second condition says that as many addresses are used as are
    available.  The value passed to [SetNodesAtCapacity] is the number of
    visited nodes for which the condition holds; in a well-formed registry
    it is the number of nodes of the snapshot that [recalculateLocked],
    run on the node the pass found, leaves in that condition. *)
Theorem Resync_counts_nodes_at_capacity (s : State) :
  let snapshot := eval GetNodesByNeededAddresses s in
  let visit p := recalculateLocked (set_resyncNeeded false (deref p s)) in
  let sts := map (fun v => stats v.1) (visits (callsOf Resync s)) in
  let count := Z.of_nat (length (List.filter atCapacity sts)) in
  let atCapacityNodes :=
    List.filter (fun p => atCapacity (stats (visit p).1)) snapshot in
  (forall st, atCapacity st = true <->
     remainingInterfaces st = 0 /\ GoInt.sub (availableIPs st) (usedIPs st) = 0) /\
  (forall st, GoInt.InRange (availableIPs st) -> GoInt.InRange (usedIPs st) ->
     (atCapacity st = true <->
        remainingInterfaces st = 0 /\ availableIPs st - usedIPs st = 0)) /\
  (forall node t s',
     let st := stats (recalculateLocked (set_resyncNeeded false (deref node s'))).1 in
     nodesAtCapacity (eval (resyncNode node t) s') =
       if atCapacity st then GoInt.add (nodesAtCapacity t) 1 else nodesAtCapacity t) /\
  nodesAtCapacitySet (callsOf Resync s) = [GoInt.wrap count] /\
  (Z.of_nat (size (nodes (mngr s))) <= GoInt.max_int ->
   nodesAtCapacitySet (callsOf Resync s) = [count]) /\
  (recalculated (callsOf Resync s)).*1 = snapshot /\
  length sts = size (nodes (mngr s)) /\
  (registry_wf s ->
     sts = map (fun p => stats (visit p).1) snapshot /\
     nodesAtCapacitySet (callsOf Resync s)
       = [GoInt.wrap (Z.of_nat (length atCapacityNodes))] /\
     (Z.of_nat (size (nodes (mngr s))) <= GoInt.max_int ->
      nodesAtCapacitySet (callsOf Resync s) = [Z.of_nat (length atCapacityNodes)])).
Proof.
  cbn zeta.
  pose proof (loopCalls_nodesAtCapacitySet (eval GetNodesByNeededAddresses s) s)
    as Hnone.
  assert (Hw : nodesAtCapacitySet (callsOf Resync s) =
    [GoInt.wrap (Z.of_nat (length (List.filter atCapacity
        (map (fun v => stats v.1) (visits (callsOf Resync s))))))]).
  { rewrite (Resync_totals s) at 1. cbn zeta.
    unfold nodesAtCapacitySet in *. by rewrite omap_app, Hnone. }
  assert (Hlen : length (map (fun v => stats v.1) (visits (callsOf Resync s)))
                 = size (nodes (mngr s))).
  { by rewrite length_map, visits_callsOf_Resync, length_visits_loopCalls,
      length_snapshot. }
  assert (Hexact : Z.of_nat (size (nodes (mngr s))) <= GoInt.max_int ->
    nodesAtCapacitySet (callsOf Resync s) =
      [Z.of_nat (length (List.filter atCapacity
          (map (fun v => stats v.1) (visits (callsOf Resync s)))))]).
  { intros Hsize. rewrite Hw. f_equal. apply wrap_id.
    pose proof (List.filter_length_le atCapacity
      (map (fun v => stats v.1) (visits (callsOf Resync s)))) as Hle.
    unfold GoInt.InRange, GoInt.min_int. lia. }
  split; [apply atCapacity_true |]. split.
  { intros st Ha Hu. rewrite atCapacity_true.
    rewrite (sub_eq_0 _ _ Ha Hu). lia. }
  split.
  { intros node t s'. cbn zeta. unfold eval. by rewrite resyncNode_run. }
  split; [exact Hw |]. split; [exact Hexact |]. split.
  { rewrite recalculated_callsOf_Resync. apply loopCalls_order. }
  split; [exact Hlen |].
  intros Hwf.
  assert (Hsts : map (fun v => stats v.1) (visits (callsOf Resync s))
                 = map (fun p => stats (recalculateLocked
                                          (set_resyncNeeded false (deref p s))).1)
                       (eval GetNodesByNeededAddresses s)).
  { rewrite (visits_Resync_wf s Hwf). by rewrite map_map. }
  assert (Hcount : forall (g : ptr -> nodeStatistics) l,
            length (List.filter atCapacity (map g l))
            = length (List.filter (fun p => atCapacity (g p)) l)).
  { intros g l. induction l as [| p l IH]; [done |].
    cbn [map List.filter]. destruct (atCapacity (g p)); cbn [length]; by rewrite IH. }
  split; [exact Hsts |].
  rewrite <- (Hcount (fun p => stats (recalculateLocked
                                        (set_resyncNeeded false (deref p s))).1)).
  rewrite <- Hsts. split; [exact Hw | exact Hexact].
Qed.

(** C4. After any sequence of [Update] and [Delete] calls, whatever names
    they carry and however they alternate, the names in the registry are
    those obtained by reading the sequence as set operations: an [Update]
    adds the name of its resource, a [Delete] removes its name. *)
Theorem registry_follows_events (es : list Event) (s : State) :
  registered (exec (forRange es applyEvent) s) = netNames (registered s) es.
Proof.
  revert s. induction es as [| e es IH]; intros s; [done |].
  rewrite forRange_cons, IH. cbn [netNames foldl]. f_equal.
  destruct e as [resource | nodeName]; cbn [applyEvent].
  - transitivity (registered (exec (Update resource) s)).
    + unfold exec, bind, ret. by destruct (Update resource s).
    + apply registered_Update.
  - apply registered_Delete.
Qed.

(** C5. The calls of a [Resync] pass are the calls of the loop over the
    snapshot [GetNodesByNeededAddresses] returns at the start, one node
    after the other in the order of the snapshot, followed by the five
    gauges.  No gauge is set inside the loop, and the values set are the
    accumulators after all the nodes visited. *)
Theorem Resync_visits_snapshot_then_sets_gauges (s : State) :
  let snapshot := eval GetNodesByNeededAddresses s in
  let body := loopCalls snapshot s in
  let t := foldl accumulate zeroTotals (map (fun v => stats v.1) (visits body)) in
  callsOf Resync s = body ++ gauges t /\
  (recalculated body).*1 = snapshot /\
  (synced body).*1 = snapshot /\
  metrics body = [] /\
  metrics (callsOf Resync s) = gauges t /\
  length (visits body) = length snapshot.
Proof.
  cbn zeta. rewrite callsOf_Resync. cbn zeta.
  destruct (loopCalls_order (eval GetNodesByNeededAddresses s) s) as [Hr Hs].
  repeat split; try done.
  - apply loopCalls_metrics.
  - unfold metrics. rewrite List.filter_app.
    fold (metrics (loopCalls (eval GetNodesByNeededAddresses s) s)).
    by rewrite loopCalls_metrics.
  - apply length_visits_loopCalls.
Qed.

(** C6. [NewNodeManager] returns an error, and no manager, exactly when
    [NewTrigger] fails for the deficit resolver or for the resync trigger;
    the error names the trigger that failed.  When it returns a manager,
    the manager's node map is empty, it holds the four interfaces it was
    given, and its two triggers are the ones [NewTrigger] made for the two
    handlers, each with a minimum interval of one second. *)
Theorem NewNodeManager_fails_iff_trigger_fails (i e k m : ptr) :
  let deficit := mkParameters "eni-node-manager-deficit-resolver" Second
                              deficitResolverFunc in
  let resync := mkParameters "eni-node-manager-resync" Second resyncTriggerFunc in
  ((exists err, NewNodeManager i e k m = inr err) <->
     (exists err, NewTrigger deficit = inr err)
     \/ (exists err, NewTrigger resync = inr err)) /\
  (forall err, NewTrigger deficit = inr err ->
     NewNodeManager i e k m
       = inr ("unable to initialize deficit resolver trigger: " +:+ err)) /\
  (forall t err, NewTrigger deficit = inl t -> NewTrigger resync = inr err ->
     NewNodeManager i e k m
       = inr ("unable to initialize resync trigger: " +:+ err)) /\
  (forall mg, NewNodeManager i e k m = inl mg ->
     nodes mg = ∅ /\
     instancesAPI mg = i /\ ec2API mg = e /\ k8sAPI mg = k /\ metricsAPI mg = m /\
     NewTrigger deficit = inl (deficitResolver mg) /\
     NewTrigger resync = inl (resyncTrigger mg)).
Proof.
  cbn zeta. unfold NewNodeManager.
  destruct (NewTrigger (mkParameters "eni-node-manager-deficit-resolver" _ _))
    as [td | errd] eqn:Hd;
  destruct (NewTrigger (mkParameters "eni-node-manager-resync" _ _))
    as [tr | errr] eqn:Hr.
  all: repeat split; intros;
    repeat match goal with
           | Hex : exists _, _ |- _ => destruct Hex
           | Hor : _ \/ _ |- _ => destruct Hor
           end;
    simplify_eq; cbn; eauto.
Qed.

(** C7. Run on a batch of names, the handler of the deficit resolver
    looks every name up in the registry, in the order of the batch: it
    calls [ResolveIPDeficit] on the node of each name it finds, logs a
    warning for each name it does not find and for each error
    [ResolveIPDeficit] returns, and does nothing else.  The names after
    any point of the batch are processed from the state the names before
    it leave, whatever was missing or failed among those. *)
Theorem deficitResolverHandler_processes_every_name (reasons : list string)
  (s : State) :
  let cs := callsOf (deficitResolverHandler reasons) s in
  let s' := exec (deficitResolverHandler reasons) s in
  nodes (mngr s') = nodes (mngr s) /\
  (resolved cs).*1 = omap (fun nodeName => nodes (mngr s) !! nodeName) reasons /\
  disappeared cs = filter (fun nodeName => nodes (mngr s) !! nodeName = None) reasons /\
  unresolved cs = omap (fun pn => (ResolveIPDeficit pn.2).2) (resolved cs) /\
  Forall resolveOrWarning cs /\
  (length (resolved cs) + length (disappeared cs) = length reasons)%nat /\
  (forall before after, reasons = before ++ after ->
     s' = exec (deficitResolverHandler after)
               (exec (deficitResolverHandler before) s)).
Proof.
  cbn zeta.
  destruct (deficitResolverHandler_run reasons s) as (Hm & cs & Hcs & Hres & Hdis & Hun & Hall).
  rewrite (callsOf_app _ _ _ Hcs), Hm.
  repeat split; try done.
  - rewrite <- (length_fmap fst (resolved cs)), Hres, Hdis.
    clear. induction reasons as [| nodeName reasons IH]; [done |].
    rewrite filter_cons. csimpl.
    destruct (nodes (mngr s) !! nodeName) eqn:Hn.
    + rewrite decide_False by done. csimpl. lia.
    + rewrite decide_True by done. csimpl. lia.
  - intros before after ->. unfold deficitResolverHandler. apply forRange_app.
Qed.

(** C8. [Update] with a resource whose name is not in the registry
    allocates a new [Node] that carries the name and points back to this
    manager, enters it in the registry under the name, and hands it the
    resource; the call returns what the node's [updatedResource] returns.
    With [updatedResource] as the specification describes it (it returns
    whether the node changed) the call returns true, and [GetNames] then
    lists the name. *)
Theorem Update_unseen_name (resource : CiliumNode) (s : State) :
  nodes (mngr s) !! Name resource = None ->
  let node := fresh (dom (heap s)) in
  let created := newNode (Name resource) (self s) in
  let s' := exec (Update resource) s in
  let s'' := exec (@Update (withIngest _) resource) s in
  heap s !! node = None /\
  name created = Name resource /\ manager created = self s /\
  nodes (mngr s') = <[Name resource := node]> (nodes (mngr s)) /\
  CUpdatedResource node created resource ∈ calls s' /\
  heap s' !! node = Some (updatedResource resource created).1 /\
  eval (Update resource) s = (updatedResource resource created).2 /\
  Name resource ∈ eval GetNames s' /\
  nodes (mngr s'') = <[Name resource := node]> (nodes (mngr s)) /\
  heap s'' !! node = Some (set_resource (Some resource) created) /\
  eval (@Update (withIngest _) resource) s = true /\
  Name resource ∈ eval GetNames s''.
Proof.
  intros Hnew. cbn zeta.
  assert (Hfresh : heap s !! fresh (dom (heap s)) = None).
  { apply not_elem_of_dom, is_fresh. }
  assert (Hgen : forall P : NodePkg,
    let r := @updatedResource P resource (newNode (Name resource) (self s)) in
    nodes (mngr (exec (@Update P resource) s))
      = <[Name resource := fresh (dom (heap s))]> (nodes (mngr s)) /\
    CUpdatedResource (fresh (dom (heap s))) (newNode (Name resource) (self s)) resource
      ∈ calls (exec (@Update P resource) s) /\
    heap (exec (@Update P resource) s) !! fresh (dom (heap s)) = Some r.1 /\
    eval (@Update P resource) s = r.2).
  { intros P. cbn zeta. unfold exec, eval. rewrite Update_run, Hnew.
    cbn [default fst snd]. rewrite deref_emit.
    change (deref ?p (set_mngr ?m ?s0)) with (deref p s0).
    rewrite deref_store.
    unfold store, emit, set_mngr, set_nodes, set_heap. cbn [heap mngr calls nodes].
    rewrite !lookup_insert_eq.
    repeat split.
    apply elem_of_app. right. apply list_elem_of_singleton. reflexivity. }
  destruct (Hgen _) as (E1 & E2 & E3 & E4).
  destruct (Hgen (withIngest _)) as (F1 & F2 & F3 & F4).
  repeat split; try done.
  - apply GetNames_elem_of. rewrite E1, lookup_insert_eq. by eexists.
  - rewrite F4. cbn. by apply bool_decide_eq_true_2.
  - apply GetNames_elem_of. rewrite F1, lookup_insert_eq. by eexists.
Qed.

(** C9. The value [Resync] passes to [SetAllocatedIPs] under "available"
    is the sum, over the nodes visited, of [availableIPs - usedIPs], the
    addresses to spare; "used" carries the sum of [usedIPs] and "needed"
    the sum of [neededIPs].  The sums are those of Go's [int]: the exact
    sums whenever these fit in an [int]. *)
Theorem Resync_available_gauge_is_spare (s : State) :
  let sts := map (fun v => stats v.1) (visits (callsOf Resync s)) in
  let used := sumZ (map usedIPs sts) in
  let spare := sumZ (map (fun st => availableIPs st - usedIPs st) sts) in
  let needed := sumZ (map neededIPs sts) in
  allocatedIPs (callsOf Resync s) =
    [("used", GoInt.wrap used); ("available", GoInt.wrap spare);
     ("needed", GoInt.wrap needed)] /\
  (GoInt.InRange used -> GoInt.InRange spare -> GoInt.InRange needed ->
   allocatedIPs (callsOf Resync s) =
     [("used", used); ("available", spare); ("needed", needed)]).
Proof.
  cbn zeta.
  pose proof (loopCalls_allocatedIPs (eval GetNodesByNeededAddresses s) s) as Hall.
  assert (Hw : allocatedIPs (callsOf Resync s) =
    let sts := map (fun v => stats v.1) (visits (callsOf Resync s)) in
    [("used", GoInt.wrap (sumZ (map usedIPs sts)));
     ("available", GoInt.wrap (sumZ (map (fun st => availableIPs st - usedIPs st) sts)));
     ("needed", GoInt.wrap (sumZ (map neededIPs sts)))]).
  { rewrite (Resync_totals s) at 1. cbn zeta.
    unfold allocatedIPs in *. by rewrite omap_app, Hall. }
  split; [exact Hw |].
  intros Hu Hs Hn. rewrite Hw. cbn zeta.
  by rewrite !wrap_id.
Qed.

(** C10. Every call of [recalculateLocked] made by a [Resync] pass finds
    its node with [resyncNeeded] false: the flag is cleared before the
    requirements are recomputed, for every node of the snapshot and
    whatever [recalculateLocked] then returns.  The pass leaves the
    registry as it is; when [recalculateLocked] and [SyncToAPIServer] do
    not touch the flag, every node of the snapshot, and so every node of
    the registry, has [resyncNeeded] false once the pass is over. *)
Theorem Resync_clears_resyncNeeded (s : State) :
  let snapshot := eval GetNodesByNeededAddresses s in
  let s' := exec Resync s in
  (recalculated (callsOf Resync s)).*1 = snapshot /\
  Forall (fun pn => resyncNeeded pn.2 = false) (recalculated (callsOf Resync s)) /\
  (forall node t s0,
     recalculated (callsOf (resyncNode node t) s0) =
       [(node, set_resyncNeeded false (deref node s0))]) /\
  nodes (mngr s') = nodes (mngr s) /\
  ((forall n, resyncNeeded (recalculateLocked n).1 = resyncNeeded n) ->
   (forall n, resyncNeeded (SyncToAPIServer n) = resyncNeeded n) ->
   (forall p, p ∈ snapshot -> resyncNeeded (deref p s') = false) /\
   (forall nodeName p, nodes (mngr s') !! nodeName = Some p ->
                       resyncNeeded (deref p s') = false)).
Proof.
  cbn zeta.
  assert (Hrec : recalculated (callsOf Resync s)
                 = recalculated (loopCalls (eval GetNodesByNeededAddresses s) s)).
  { rewrite callsOf_Resync. cbn zeta. unfold recalculated.
    rewrite omap_app. cbn [gauges omap]. by rewrite app_nil_r. }
  destruct (exec_Resync s) as [Hheap Hmngr].
  rewrite Hrec, Hmngr.
  split; [apply loopCalls_order |].
  split; [apply loopCalls_flag |].
  split; [intros node t s0; by rewrite callsOf_resyncNode, recalculated_visitCalls |].
  split; [done |].
  intros Hrecalc Hsync.
  assert (Hsnap : forall p, p ∈ eval GetNodesByNeededAddresses s ->
                            resyncNeeded (deref p (exec Resync s)) = false).
  { intros p Hp. unfold deref. rewrite Hheap.
    apply (resyncLoop_flags Hrecalc Hsync). by left. }
  split; [exact Hsnap |].
  intros nodeName p Hp. apply Hsnap.
  unfold eval. rewrite GetNodesByNeededAddresses_run. cbn [fst].
  rewrite sortSlice_perm, mapRange_perm.
  apply list_elem_of_fmap. exists (nodeName, p). split; [done |].
  by apply elem_of_map_to_list.
Qed.

End Claims.

(** ** The properties on the sample fleet

    Each statement below is one of the theorems above, taken at
    [stdRuntime], [samplePkg] and a concrete state. *)

Lemma GetNodesByNeededAddresses_sorted_snapshot_witness :
  @neededOf samplePkg fleetState
    <$> eval (@GetNodesByNeededAddresses stdRuntime samplePkg) fleetState
  = [5; 3; 0].
Proof.
  destruct (@GetNodesByNeededAddresses_sorted_snapshot stdRuntime samplePkg fleetState)
    as (_ & _ & _ & _ & Hfleet).
  apply Hfleet. apply (bool_decide_unpack _). vm_compute. exact I.
Defined.

Lemma Resync_enqueues_iff_needed_and_capacity_witness :
  triggered (callsOf (@Resync stdRuntime samplePkg) scenarioState)
    = [(deficitResolver (mngr scenarioState), "worker-1")] /\
  triggered (callsOf (@Resync stdRuntime samplePkg) exhaustedState) = [].
Proof.
  split.
  - destruct (@Resync_enqueues_iff_needed_and_capacity stdRuntime samplePkg
                scenarioState) as (_ & _ & _ & _ & _ & Hwf).
    destruct (Hwf registry_wf_scenarioState) as (_ & Htriggered & _).
    rewrite Htriggered. vm_compute. reflexivity.
  - destruct (@Resync_enqueues_iff_needed_and_capacity stdRuntime samplePkg
                exhaustedState) as (_ & _ & _ & _ & _ & Hwf).
    destruct (Hwf registry_wf_exhaustedState) as (_ & Htriggered & _).
    rewrite Htriggered. vm_compute. reflexivity.
Defined.

Lemma Resync_counts_nodes_at_capacity_witness :
  nodesAtCapacitySet (callsOf (@Resync stdRuntime samplePkg) fleetState) = [1].
Proof.
  destruct (@Resync_counts_nodes_at_capacity stdRuntime samplePkg fleetState)
    as (_ & _ & _ & _ & _ & _ & _ & Hwf).
  destruct (Hwf registry_wf_fleetState) as (_ & _ & Hexact).
  rewrite Hexact; [vm_compute; reflexivity | vm_compute; discriminate].
Defined.

Lemma Update_unseen_name_witness :
  eval (@Update (withIngest samplePkg) (mkCiliumNode "worker-9" "spec")) fleetState
    = true /\
  "worker-9" ∈ eval (@GetNames stdRuntime)
                    (exec (@Update (withIngest samplePkg) (mkCiliumNode "worker-9" "spec"))
                          fleetState).
Proof.
  destruct (@Update_unseen_name stdRuntime samplePkg (mkCiliumNode "worker-9" "spec")
              fleetState)
    as (_ & _ & _ & _ & _ & _ & _ & _ & _ & _ & Hchanged & Hlisted).
  - vm_compute. reflexivity.
  - split; [exact Hchanged | exact Hlisted].
Defined.

Lemma Resync_available_gauge_is_spare_witness :
  allocatedIPs (callsOf (@Resync stdRuntime samplePkg) fleetState)
  = [("used", 10); ("available", 3); ("needed", 8)].
Proof.
  destruct (@Resync_available_gauge_is_spare stdRuntime samplePkg fleetState)
    as (_ & Hexact).
  rewrite Hexact; [vm_compute; reflexivity | | |];
    vm_compute; split; discriminate.
Defined.

Lemma Resync_clears_resyncNeeded_witness :
  forallb (fun p => negb (resyncNeeded
                            (deref p (exec (@Resync stdRuntime samplePkg) fleetState))))
          [1%positive; 2%positive; 3%positive]
  = true.
Proof.
  destruct (@Resync_clears_resyncNeeded stdRuntime samplePkg fleetState)
    as (_ & _ & _ & _ & Hafter).
  destruct Hafter as (Hsnapshot & _); [reflexivity | reflexivity |].
  assert (Hin : forall p, p ∈ [1%positive; 2%positive; 3%positive] ->
                          p ∈ eval (@GetNodesByNeededAddresses stdRuntime samplePkg) fleetState).
  { intros p Hp. vm_compute.
    repeat (apply elem_of_cons in Hp; destruct Hp as [-> | Hp]);
      [| | | by apply elem_of_nil in Hp];
      repeat first [apply list_elem_of_here | apply list_elem_of_further]. }
  cbn [forallb]. rewrite !Hsnapshot; [reflexivity | | |]; apply Hin;
    repeat first [apply list_elem_of_here | apply list_elem_of_further].
Defined.

(** * Part V: further properties of the registry and of the pass *)

Section Further.
Context `{GoRuntime} `{NodePkg}.

(** X1. After [Update], [Get] of the resource's name returns an allocated
    node: the one the registry already held for the name, or a newly
    allocated one.  [Get] of any other name answers as before, no other
    object of the heap moves, and the registry grows by at most one
    entry. *)
Theorem Update_then_Get (resource : CiliumNode) (s : State) :
  let s' := exec (Update resource) s in
  let p := default (fresh (dom (heap s))) (nodes (mngr s) !! Name resource) in
  eval (Get (Name resource)) s' = Some p /\
  is_Some (heap s' !! p) /\
  exec (Get (Name resource)) s' = s' /\
  (forall other, other <> Name resource ->
     eval (Get other) s' = eval (Get other) s) /\
  (forall q, q <> p -> heap s' !! q = heap s !! q) /\
  (size (nodes (mngr s)) <= size (nodes (mngr s')) <= S (size (nodes (mngr s))))%nat.
Proof.
  cbn zeta. destruct (exec_Update resource s) as (Hh & Hm & _ & _ & _).
  cbn zeta in Hh, Hm. unfold eval, Get, bind, get, ret. cbn [fst snd].
  rewrite Hh, Hm. clear Hh Hm.
  destruct (nodes (mngr s) !! Name resource) as [p |] eqn:Hp;
    cbn [default set_nodes nodes];
    repeat split; intros;
    rewrite ?lookup_insert_eq, ?map_size_insert_None by done;
    try (rewrite lookup_insert_ne by done); try done; lia.
Qed.

(** X2. [Update] for a name the registry knows creates nothing: the
    registry is left as it is, no discovery is logged, and the only call
    made is [updatedResource] on the node already registered, whose result
    is returned. *)
Theorem Update_known_name (resource : CiliumNode) (s : State) (p : ptr) :
  nodes (mngr s) !! Name resource = Some p ->
  let s' := exec (Update resource) s in
  mngr s' = mngr s /\
  callsOf (Update resource) s = [CUpdatedResource p (deref p s) resource] /\
  heap s' = <[p := (updatedResource resource (deref p s)).1]> (heap s) /\
  eval (Update resource) s = (updatedResource resource (deref p s)).2.
Proof.
  intros Hp. cbn zeta.
  destruct (exec_Update resource s) as (Hh & Hm & _ & Hc & He).
  cbn zeta in Hh, Hm, Hc, He. rewrite Hp in Hh, Hm, Hc, He. cbn [default] in *.
  repeat split; try done.
  by apply callsOf_app.
Qed.

(** X3. After [Delete], [Get] of the name returns nil and [GetNames] no
    longer lists it, while every other name answers as before.  The heap
    and the calls are as they were: the node itself lives on for whoever
    holds a pointer to it.  A second [Delete] changes nothing, nor does a
    [Delete] of a name the registry does not know. *)
Theorem Delete_removes_only_the_name (nodeName : string) (s : State) :
  let s' := exec (Delete nodeName) s in
  eval (Get nodeName) s' = None /\
  (nodeName ∉ eval GetNames s') /\
  (forall other, other <> nodeName -> eval (Get other) s' = eval (Get other) s) /\
  heap s' = heap s /\ calls s' = calls s /\
  exec (Delete nodeName) s' = s' /\
  (nodes (mngr s) !! nodeName = None -> s' = s).
Proof.
  cbn zeta. rewrite !exec_Delete.
  unfold eval, Get, bind, get, ret. cbn [fst snd heap mngr calls self set_nodes nodes].
  repeat split.
  - apply lookup_delete_eq.
  - intros Hin. apply GetNames_elem_of in Hin as [q Hq].
    cbn in Hq. by rewrite lookup_delete_eq in Hq.
  - intros other Hother. by apply lookup_delete_ne.
  - by rewrite delete_delete_eq.
  - intros Hnone. destruct s as [h sf [m a b c d e f] cs]. cbn in *.
    unfold set_nodes. cbn. by rewrite delete_id.
Qed.

(** X4. When a registered name is deleted and a resource with that name
    arrives again, [Update] allocates a new node: [Get] returns a pointer
    different from the old one, the node handed to [updatedResource] is a
    zero node carrying only the name and the manager, and the old node is
    left in the heap as it was. *)
Theorem Delete_then_Update_starts_afresh (resource : CiliumNode) (s : State)
  (old : ptr) :
  registry_wf s ->
  nodes (mngr s) !! Name resource = Some old ->
  let s' := exec (Update resource) (exec (Delete (Name resource)) s) in
  let new := fresh (dom (heap s)) in
  eval (Get (Name resource)) s' = Some new /\
  new <> old /\
  heap s' !! old = heap s !! old /\
  heap s' !! new
    = Some (updatedResource resource (newNode (Name resource) (self s))).1 /\
  CUpdatedResource new (newNode (Name resource) (self s)) resource ∈ calls s'.
Proof.
  intros [Halloc _] Hold. cbn zeta.
  destruct (exec_Update resource (exec (Delete (Name resource)) s))
    as (Hh & Hm & _ & Hc & _).
  cbn zeta in Hh, Hm, Hc. rewrite exec_Delete in Hh, Hm, Hc.
  cbn [heap mngr self calls set_nodes nodes] in Hh, Hm, Hc.
  rewrite lookup_delete_eq in Hh, Hm, Hc. cbn [default] in *.
  assert (Hne : fresh (dom (heap s)) <> old).
  { intros Heq. apply Halloc in Hold as [n Hn].
    pose proof (is_fresh (dom (heap s))) as Hfresh.
    apply Hfresh. rewrite Heq. by apply elem_of_dom. }
  unfold eval, Get, bind, get, ret. cbn [fst snd]. rewrite exec_Delete.
  rewrite Hh, Hm, Hc. cbn [set_nodes nodes]. repeat split.
  - by rewrite lookup_insert_eq.
  - done.
  - by rewrite lookup_insert_ne.
  - by rewrite lookup_insert_eq.
  - rewrite !elem_of_app. right. right. apply list_elem_of_singleton. reflexivity.
Qed.

(** X5. An [Update] and a [Delete] of a different name can be made in
    either order: both orders leave the same state, and [Update] returns
    the same result. *)
Theorem Update_Delete_commute (resource : CiliumNode) (nodeName : string)
  (s : State) :
  nodeName <> Name resource ->
  exec (Delete nodeName) (exec (Update resource) s)
    = exec (Update resource) (exec (Delete nodeName) s) /\
  eval (Update resource) (exec (Delete nodeName) s) = eval (Update resource) s.
Proof.
  intros Hne.
  destruct (exec_Update resource s) as (Hh & Hm & Hs & Hc & He).
  destruct (exec_Update resource (exec (Delete nodeName) s))
    as (Hh' & Hm' & Hs' & Hc' & He').
  cbn zeta in *. rewrite !exec_Delete in *.
  cbn [heap mngr self calls set_nodes nodes] in Hh', Hm', Hs', Hc', He'.
  rewrite lookup_delete_ne in Hh', Hm', Hc', He' by done.
  change (deref ?p (mkState (heap s) ?a ?b ?c)) with (deref p s) in *.
  split; [| congruence].
  apply state_eq; cbn [heap mngr self calls]; try congruence.
  rewrite Hm, Hm'.
  destruct (nodes (mngr s) !! Name resource); [done |].
  unfold set_nodes. cbn. by rewrite delete_insert_ne.
Qed.

(** X6. [GetNames] changes nothing and lists every name of the registry
    exactly once: the list has no duplicates, it has as many elements as
    the registry has entries, and a name is in it exactly when [Get] finds
    a node for it.  On an empty registry the list is empty. *)
Theorem GetNames_lists_each_name_once (s : State) :
  let names := eval GetNames s in
  exec GetNames s = s /\
  NoDup names /\
  length names = size (nodes (mngr s)) /\
  (forall nodeName, nodeName ∈ names <-> is_Some (eval (Get nodeName) s)) /\
  (nodes (mngr s) = ∅ -> names = []).
Proof.
  cbn zeta. unfold eval, exec. rewrite GetNames_run. cbn [fst snd].
  repeat split.
  - rewrite mapRange_perm. apply NoDup_fst_map_to_list.
  - by rewrite length_fmap, mapRange_perm, length_map_to_list.
  - intros Hin. apply (GetNames_elem_of nodeName s).
    unfold eval. by rewrite GetNames_run.
  - intros Hget. pose proof (proj2 (GetNames_elem_of nodeName s) Hget) as Hin.
    unfold eval in Hin. by rewrite GetNames_run in Hin.
  - intros ->. by rewrite mapRange_empty.
Qed.

(** X7. A registry in which every pointer is allocated and no two names
    share a node stays so under every method of the manager and under both
    trigger handlers. *)
Theorem registry_wf_is_kept (s : State) :
  registry_wf s ->
  (forall resource, registry_wf (exec (Update resource) s)) /\
  (forall nodeName, registry_wf (exec (Delete nodeName) s)) /\
  registry_wf (exec GetNames s) /\
  registry_wf (exec GetNodesByNeededAddresses s) /\
  registry_wf (exec Resync s) /\
  (forall reasons, registry_wf (exec (deficitResolverHandler reasons) s)) /\
  (forall reasons, registry_wf (exec (resyncHandler reasons) s)).
Proof.
  intros Hwf. split; [| split; [| split; [| split; [| split; [| split]]]]].
  - intros resource. by apply registry_wf_Update.
  - intros nodeName. by apply registry_wf_Delete.
  - unfold exec. by rewrite GetNames_run.
  - unfold exec. by rewrite GetNodesByNeededAddresses_run.
  - by apply registry_wf_Resync.
  - intros reasons. by apply registry_wf_deficitResolverHandler.
  - intros reasons.
    change (registry_wf (exec Resync (emit CInstancesResync s))).
    by apply registry_wf_Resync.
Qed.

(** X8. On an empty registry the snapshot is empty and a [Resync] pass
    calls nothing but the five gauges, each with zero, and leaves the heap
    as it is.  A manager that [NewNodeManager] has just returned is in
    that case. *)
Theorem Resync_empty_registry :
  (forall s, nodes (mngr s) = ∅ ->
     eval GetNodesByNeededAddresses s = [] /\
     callsOf Resync s =
       [CSetAllocatedIPs "used" 0; CSetAllocatedIPs "available" 0;
        CSetAllocatedIPs "needed" 0; CSetAvailableENIs 0; CSetNodesAtCapacity 0] /\
     heap (exec Resync s) = heap s) /\
  (forall i e k m mg h sf cs,
     NewNodeManager i e k m = inl mg ->
     callsOf Resync (mkState h sf mg cs) =
       [CSetAllocatedIPs "used" 0; CSetAllocatedIPs "available" 0;
        CSetAllocatedIPs "needed" 0; CSetAvailableENIs 0; CSetNodesAtCapacity 0] /\
     eval GetNames (mkState h sf mg cs) = []).
Proof.
  assert (Hempty : forall s, nodes (mngr s) = ∅ ->
     eval GetNodesByNeededAddresses s = [] /\
     callsOf Resync s =
       [CSetAllocatedIPs "used" 0; CSetAllocatedIPs "available" 0;
        CSetAllocatedIPs "needed" 0; CSetAvailableENIs 0; CSetNodesAtCapacity 0] /\
     heap (exec Resync s) = heap s).
  { intros s Hs.
    assert (Hsnap : eval GetNodesByNeededAddresses s = []).
    { unfold eval. rewrite GetNodesByNeededAddresses_run. cbn [fst].
      by rewrite Hs, mapRange_empty, sortSlice_nil. }
    split; [done |]. split.
    - rewrite callsOf_Resync. cbn zeta. by rewrite Hsnap.
    - destruct (exec_Resync s) as [-> _]. by rewrite Hsnap. }
  split; [exact Hempty |].
  intros i e k m mg h sf cs Hmg.
  assert (Hnodes : nodes mg = ∅).
  { unfold NewNodeManager in Hmg.
    destruct (NewTrigger _) as [td |]; [| done].
    destruct (NewTrigger _) as [tr |]; [| done].
    by simplify_eq. }
  split.
  - by apply Hempty.
  - unfold eval. rewrite GetNames_run. cbn [fst mngr].
    by rewrite Hnodes, mapRange_empty.
Qed.

(** X9. The value [Resync] passes to [SetAvailableENIs] is the sum, over
    the nodes visited, of their remaining interfaces, in the arithmetic of
    [int]: the exact sum whenever it fits in an [int]. *)
Theorem Resync_available_ENIs_gauge (s : State) :
  let sts := map (fun v => stats v.1) (visits (callsOf Resync s)) in
  let remaining := sumZ (map remainingInterfaces sts) in
  availableENIs (callsOf Resync s) = [GoInt.wrap remaining] /\
  (GoInt.InRange remaining -> availableENIs (callsOf Resync s) = [remaining]).
Proof.
  cbn zeta.
  assert (Hw : availableENIs (callsOf Resync s) =
    [GoInt.wrap (sumZ (map remainingInterfaces
       (map (fun v => stats v.1) (visits (callsOf Resync s)))))]).
  { rewrite (Resync_totals s) at 1. cbn zeta.
    unfold availableENIs. rewrite omap_app.
    fold (availableENIs (loopCalls (eval GetNodesByNeededAddresses s) s)).
    by rewrite availableENIs_loopCalls. }
  split; [exact Hw |].
  intros Hr. by rewrite Hw, wrap_id.
Qed.

(** X10. In a well-formed registry a [Resync] pass replaces every
    registered node by what [recalculateLocked], run with [resyncNeeded]
    cleared, and then [SyncToAPIServer] make of the node the pass found;
    each visit sees its node as it was when the pass started, and no
    object outside the snapshot is touched. *)
Theorem Resync_updates_each_node_once (s : State) :
  registry_wf s ->
  let s' := exec Resync s in
  let visit p := recalculateLocked (set_resyncNeeded false (deref p s)) in
  (forall nodeName p, nodes (mngr s) !! nodeName = Some p ->
     heap s' !! p = Some (SyncToAPIServer (visit p).1)) /\
  (forall p, p ∉ eval GetNodesByNeededAddresses s -> heap s' !! p = heap s !! p) /\
  visits (callsOf Resync s) = map visit (eval GetNodesByNeededAddresses s).
Proof.
  intros Hwf. cbn zeta. destruct (exec_Resync s) as [Hh _]. rewrite Hh.
  pose proof (snapshot_NoDup s Hwf) as Hnd.
  repeat split.
  - intros nodeName p Hp. rewrite heap_resyncLoop by done.
    rewrite decide_True; [done |]. apply snapshot_elem_of. by exists nodeName.
  - intros p Hp. rewrite heap_resyncLoop by done. by rewrite decide_False.
  - by apply visits_Resync_wf.
Qed.

(** X11. In a [Resync] pass [SyncToAPIServer] is called once for every
    node of the snapshot, needed or not, and each call finds the node as
    [recalculateLocked] has just left it. *)
Theorem Resync_syncs_what_it_recalculated (s : State) :
  let cs := callsOf Resync s in
  synced cs = map (fun pn => (pn.1, (recalculateLocked pn.2).1)) (recalculated cs) /\
  (synced cs).*1 = eval GetNodesByNeededAddresses s /\
  length (synced cs) = size (nodes (mngr s)).
Proof.
  cbn zeta. rewrite callsOf_Resync. cbn zeta.
  unfold synced, recalculated. rewrite !omap_app. cbn [gauges omap].
  rewrite !app_nil_r.
  fold (synced (loopCalls (eval GetNodesByNeededAddresses s) s)).
  fold (recalculated (loopCalls (eval GetNodesByNeededAddresses s) s)).
  destruct (loopCalls_order (eval GetNodesByNeededAddresses s) s) as [_ Hs].
  repeat split.
  - apply synced_loopCalls.
  - exact Hs.
  - rewrite <- (length_fmap fst), Hs. apply length_snapshot.
Qed.

(** X12. The handler of the deficit resolver touches only the nodes it is
    asked about: every object of the heap that no name of the batch leads
    to is left as it was, and an empty batch leaves the whole state as it
    was.  For a batch of one registered name the node ends as
    [ResolveIPDeficit] leaves it. *)
Theorem deficitResolverHandler_touches_only_named (reasons : list string)
  (s : State) :
  let s' := exec (deficitResolverHandler reasons) s in
  (forall p, p ∉ omap (fun nodeName => nodes (mngr s) !! nodeName) reasons ->
     heap s' !! p = heap s !! p) /\
  (reasons = [] -> s' = s) /\
  (forall nodeName p, reasons = [nodeName] ->
     nodes (mngr s) !! nodeName = Some p ->
     heap s' !! p = Some (ResolveIPDeficit (deref p s)).1).
Proof.
  cbn zeta. repeat split.
  - intros p Hp. by apply heap_deficitResolverHandler.
  - by intros ->.
  - intros nodeName p -> Hp.
    destruct (deficitResolverHandler_heap_cons nodeName [] s) as (s1 & -> & _ & Hh).
    rewrite Hp in Hh.
    change (exec (deficitResolverHandler []) s1) with s1.
    by rewrite Hh, lookup_insert_eq.
Qed.

End Further.

(** X14. In a well-formed registry the five gauges of a [Resync] pass do
    not depend on the order in which the map is walked nor on how
    [sort.Slice] breaks ties: two runtimes give the same gauges. *)
Theorem Resync_gauges_do_not_depend_on_order (R1 R2 : GoRuntime) (P : NodePkg)
  (s : State) :
  registry_wf s ->
  metrics (callsOf (@Resync R1 P) s) = metrics (callsOf (@Resync R2 P) s).
Proof.
  intros Hwf.
  assert (Hmetrics : forall R : GoRuntime,
    metrics (callsOf (@Resync R P) s) =
      let sts := map (fun p => stats (recalculateLocked
                                        (set_resyncNeeded false (deref p s))).1)
                     (map_to_list (nodes (mngr s))).*2 in
      gauges (mkTotals
        (GoInt.wrap (sumZ (map usedIPs sts)))
        (GoInt.wrap (sumZ (map (fun st => availableIPs st - usedIPs st) sts)))
        (GoInt.wrap (sumZ (map neededIPs sts)))
        (GoInt.wrap (sumZ (map remainingInterfaces sts)))
        (GoInt.wrap (Z.of_nat (length (List.filter atCapacity sts)))))).
  { intros R. cbn zeta.
    set (g := fun p => stats (recalculateLocked (set_resyncNeeded false (deref p s))).1).
    assert (Hst : map (fun v => stats v.1) (visits (callsOf (@Resync R P) s))
                  = map g (eval (@GetNodesByNeededAddresses R P) s)).
    { rewrite (@visits_Resync_wf R P s Hwf). by rewrite map_map. }
    assert (Hperm : map g (eval (@GetNodesByNeededAddresses R P) s)
                    ≡ₚ map g (map_to_list (nodes (mngr s))).*2).
    { apply (fmap_Permutation g). unfold eval.
      rewrite GetNodesByNeededAddresses_run. cbn [fst].
      by rewrite sortSlice_perm, mapRange_perm. }
    rewrite (@Resync_totals R P s). cbn zeta. rewrite Hst.
    unfold metrics at 1. rewrite List.filter_app.
    fold (metrics (loopCalls (eval (@GetNodesByNeededAddresses R P) s) s)).
    rewrite loopCalls_metrics. cbn [app gauges List.filter isMetric].
    rewrite (sumZ_map_perm usedIPs _ _ Hperm).
    rewrite (sumZ_map_perm (fun st => availableIPs st - usedIPs st) _ _ Hperm).
    rewrite (sumZ_map_perm neededIPs _ _ Hperm).
    rewrite (sumZ_map_perm remainingInterfaces _ _ Hperm).
    by rewrite (length_filter_perm atCapacity _ _ Hperm). }
  by rewrite (Hmetrics R1), (Hmetrics R2).
Qed.

(** ** The further properties on the sample states *)

Lemma registry_wf_discoveredState : registry_wf discoveredState.
Proof. apply (@registry_wf_events samplePkg), registry_wf_empty. Qed.

Lemma Update_known_name_witness :
  callsOf (@Update samplePkg (mkCiliumNode "worker-1" "spec-1b")) fleetState
  = [CUpdatedResource 1%positive (deref 1%positive fleetState)
                      (mkCiliumNode "worker-1" "spec-1b")].
Proof.
  destruct (@Update_known_name samplePkg (mkCiliumNode "worker-1" "spec-1b")
              fleetState 1%positive) as (_ & Hcalls & _).
  - vm_compute. reflexivity.
  - exact Hcalls.
Defined.

Lemma Delete_then_Update_starts_afresh_witness :
  eval (Get "worker-1")
       (exec (@Update samplePkg (mkCiliumNode "worker-1" "spec-1b"))
             (exec (Delete "worker-1") discoveredState))
    = Some (fresh (dom (heap discoveredState))) /\
  heap (exec (@Update samplePkg (mkCiliumNode "worker-1" "spec-1b"))
             (exec (Delete "worker-1") discoveredState)) !! 1%positive
    = heap discoveredState !! 1%positive.
Proof.
  destruct (@Delete_then_Update_starts_afresh samplePkg
              (mkCiliumNode "worker-1" "spec-1b") discoveredState 1%positive)
    as (Hget & _ & Hold & _).
  - exact registry_wf_discoveredState.
  - vm_compute. reflexivity.
  - split; [exact Hget | exact Hold].
Defined.

Lemma Update_Delete_commute_witness :
  exec (Delete "worker-2")
       (exec (@Update samplePkg (mkCiliumNode "worker-9" "spec-9")) fleetState)
  = exec (@Update samplePkg (mkCiliumNode "worker-9" "spec-9"))
         (exec (Delete "worker-2") fleetState).
Proof.
  destruct (@Update_Delete_commute samplePkg (mkCiliumNode "worker-9" "spec-9")
              "worker-2" fleetState) as (Hcomm & _).
  - discriminate.
  - exact Hcomm.
Defined.

Lemma registry_wf_is_kept_witness :
  registry_wf (exec (@Resync stdRuntime samplePkg) fleetState).
Proof.
  destruct (@registry_wf_is_kept stdRuntime samplePkg fleetState
              registry_wf_fleetState) as (_ & _ & _ & _ & Hresync & _).
  exact Hresync.
Defined.

Lemma Resync_empty_registry_witness :
  callsOf (@Resync stdRuntime samplePkg) emptyState =
    [CSetAllocatedIPs "used" 0; CSetAllocatedIPs "available" 0;
     CSetAllocatedIPs "needed" 0; CSetAvailableENIs 0; CSetNodesAtCapacity 0].
Proof.
  destruct (@Resync_empty_registry stdRuntime samplePkg) as (Hempty & _).
  destruct (Hempty emptyState) as (_ & Hcalls & _); [reflexivity | exact Hcalls].
Defined.

Lemma Resync_available_ENIs_gauge_witness :
  availableENIs (callsOf (@Resync stdRuntime samplePkg) fleetState) = [1].
Proof.
  destruct (@Resync_available_ENIs_gauge stdRuntime samplePkg fleetState)
    as (_ & Hexact).
  rewrite Hexact; [vm_compute; reflexivity |].
  vm_compute. split; discriminate.
Defined.

Lemma Resync_updates_each_node_once_witness :
  heap (exec (@Resync stdRuntime samplePkg) fleetState) !! 1%positive
  = Some (@SyncToAPIServer samplePkg
            (@recalculateLocked samplePkg
               (set_resyncNeeded false (deref 1%positive fleetState))).1).
Proof.
  destruct (@Resync_updates_each_node_once stdRuntime samplePkg fleetState
              registry_wf_fleetState) as (Hnode & _).
  apply (Hnode "worker-1"). vm_compute. reflexivity.
Defined.

Lemma Resync_gauges_do_not_depend_on_order_witness :
  metrics (callsOf (@Resync stdRuntime samplePkg) fleetState)
  = metrics (callsOf (@Resync reversedRuntime samplePkg) fleetState).
Proof.
  exact (Resync_gauges_do_not_depend_on_order stdRuntime reversedRuntime samplePkg
           fleetState registry_wf_fleetState).
Defined.
